(** * HIP-820 challenge signing: wire formats of the discovery scripts

    A shallow embedding of the authentication helpers that every script under
    [MarketMakerWorkerService.Tests/discovery] carries:

    - [build_hip820]                 (new_auth.py, order_lifecycle_3.py, ...)
    - [encode_varint]                (new_auth.py, order_lifecycle_3.py, ...)
    - [decode_varint]                (scripts/ex_deposit.py)
    - [build_signature_map]          (order_lifecycle_3.py, scripts/ex_deposit.py)
    - [build_signature_map_protobuf] (new_auth.py)
    - the signing block of [authenticate] and the key loader.

    Python integers are unbounded, so they are [Z]; a [bytes] object is a list
    of integers in [range(256)]; a [str] is a list of code points.  A Python
    exception is the [Raise] branch of [result]. *)

From Stdlib Require Import ZArith List Lia Bool String Ascii.
From Equations Require Import Equations.
Import ListNotations.
Open Scope Z_scope.

Set Default Goal Selector "!".

(** ** A small model of the Python runtime *)

Module Py.

(** Exception classes the modelled code can meet.  [LibraryError] stands for
    an exception class defined by a third-party package. *)
Inductive exn : Type :=
| ValueError
| IndexError
| UnicodeEncodeError
| UnicodeDecodeError
| LibraryError (cls : string).

Inductive result (A : Type) : Type :=
| Ok (a : A)
| Raise (e : exn).
Arguments Ok {A} a.
Arguments Raise {A} e.

Definition bind {A B : Type} (m : result A) (k : A -> result B) : result B :=
  match m with
  | Ok a => k a
  | Raise e => Raise e
  end.

Definition succeeds {A : Type} (m : result A) : bool :=
  match m with Ok _ => true | Raise _ => false end.

(** [bytes] objects and [str] objects. *)
Definition bytes : Type := list Z.
Definition str : Type := list Z.

Definition is_byte (b : Z) : bool := (0 <=? b) && (b <? 256).
Definition wf_bytes (bs : bytes) : Prop := Forall (fun b => 0 <= b < 256) bs.

(** [len(x)] *)
Definition len {A : Type} (l : list A) : Z := Z.of_nat (List.length l).

(** [bytes(iterable_of_ints)]: ValueError unless every item is in range(256). *)
Definition bytes_of_ints (l : list Z) : result bytes :=
  if forallb is_byte l then Ok l else Raise ValueError.

(** [data[i]] on a sequence, with Python's negative indices. *)
Definition getitem (data : list Z) (i : Z) : result Z :=
  let n := len data in
  let j := if i <? 0 then i + n else i in
  if (0 <=? j) && (j <? n) then Ok (nth (Z.to_nat j) data 0)
  else Raise IndexError.

(** [data[lo:hi]]: indices are taken from the end when negative, then
    clamped to [0, len(data)]; a slice never raises. *)
Definition slice_index (n i : Z) : Z :=
  Z.max 0 (Z.min n (if i <? 0 then i + n else i)).

Definition slice (data : list Z) (lo hi : Z) : list Z :=
  let lo := slice_index (len data) lo in
  let hi := slice_index (len data) hi in
  firstn (Z.to_nat (hi - lo)) (skipn (Z.to_nat lo) data).

(** A byte string written as an ASCII literal. *)
Definition ascii_bytes (s : string) : bytes :=
  map (fun c => Z.of_N (N_of_ascii c)) (list_ascii_of_string s).

End Py.
Import Py.

Declare Scope py_scope.
Delimit Scope py_scope with py.
Notation "x <- m ;; k" := (bind m (fun x => k))
  (at level 61, m at next level, right associativity) : py_scope.
Open Scope py_scope.

(** ** [str(n)] and [.encode('ascii')] *)

(** Decimal digits of a non-negative integer, most significant first, as code
    points; [acc] holds the digits already produced. *)
Equations? decimal_digits (n : Z) (acc : list Z) : list Z
  by wf (Z.to_nat (Z.log2 n)) lt :=
  decimal_digits n acc with Z_lt_dec n 10 => {
    | left _ := (48 + n) :: acc;
    | right _ := decimal_digits (n / 10) ((48 + n mod 10) :: acc) }.
Proof.
  assert (Hn : 10 <= n) by lia.
  assert (Hq : 0 < n / 10) by (apply Z.div_str_pos; lia).
  assert (H2 : 2 * (n / 10) <= n).
  { pose proof (Z.mul_div_le n 10 ltac:(lia)). lia. }
  assert (Hlog : Z.log2 (2 * (n / 10)) <= Z.log2 n) by (apply Z.log2_le_mono; lia).
  rewrite Z.log2_double in Hlog by lia.
  pose proof (Z.log2_nonneg (n / 10)). lia.
Qed.

(** [str(n)] for an [int]. *)
Definition py_str (n : Z) : str :=
  if n <? 0 then 45 :: decimal_digits (- n) [] else decimal_digits n [].

(** [s.encode('ascii')] *)
Definition encode_ascii (s : str) : result bytes :=
  if forallb (fun c => (0 <=? c) && (c <? 128)) s then Ok s
  else Raise UnicodeEncodeError.

(** ** HIP-820 message wrapper *)

(** The literal [b'\x19Hedera Signed Message:\n']. *)
Definition hip820_prefix : bytes :=
  [25] ++ ascii_bytes "Hedera Signed Message:" ++ [10].

(** new_auth.py [build_hip820]; the copies in the other scripts differ only in
    variable names and logging. *)
Definition build_hip820 (canonical_message_bytes : bytes) : result bytes :=
  let prefix := hip820_prefix in
  length_str <- encode_ascii (py_str (len canonical_message_bytes)) ;;
  let newline := [10] in
  Ok (prefix ++ length_str ++ newline ++ canonical_message_bytes).

(** ** Protobuf varints *)

(** The [while value > 0x7f] loop of [encode_varint]; [result] is the list
    being appended to. *)
Equations? encode_varint_loop (value : Z) (result : list Z) : list Z
  by wf (Z.to_nat (Z.log2 value)) lt :=
  encode_varint_loop value result with Z_lt_dec 127 value => {
    | left _ := encode_varint_loop (Z.shiftr value 7)
                  (result ++ [Z.lor (Z.land value 127) 128]);
    | right _ := result ++ [Z.land value 127] }.
Proof.
  rewrite Z.log2_shiftr by lia.
  assert (7 <= Z.log2 value) by (apply Z.log2_le_pow2; lia).
  lia.
Qed.

(** [encode_varint] *)
Definition encode_varint (value : Z) : result bytes :=
  bytes_of_ints (encode_varint_loop value []).

(** The [while pos < len(data)] loop of [decode_varint]; [todo] is the loop
    variant [len(data) - pos]. *)
Fixpoint decode_varint_loop (todo : nat) (data : bytes) (value shift pos : Z)
  : result (Z * Z) :=
  match todo with
  | O => Ok (value, pos)
  | S todo' =>
      byte <- getitem data pos ;;
      let pos := pos + 1 in
      let value := Z.lor value (Z.shiftl (Z.land byte 127) shift) in
      if Z.land byte 128 =? 0 then Ok (value, pos)
      else decode_varint_loop todo' data value (shift + 7) pos
  end.

(** scripts/ex_deposit.py [decode_varint] *)
Definition decode_varint (data : bytes) (pos : Z) : result (Z * Z) :=
  decode_varint_loop (Z.to_nat (len data - pos)) data 0 0 pos.

(** ** Signature map *)

(** order_lifecycle_3.py / ex_deposit.py [build_signature_map] *)
Definition build_signature_map (pub_key signature : bytes) : result bytes :=
  l1 <- encode_varint (len pub_key) ;;
  let sig_pair := [10] ++ l1 ++ pub_key in
  l2 <- encode_varint (len signature) ;;
  let sig_pair := sig_pair ++ ([26] ++ l2 ++ signature) in
  l3 <- encode_varint (len sig_pair) ;;
  Ok ([10] ++ l3 ++ sig_pair).

(** new_auth.py [build_signature_map_protobuf] *)
Definition build_signature_map_protobuf
    (public_key_bytes signature_bytes : bytes) (key_type : string) : result bytes :=
  let sig_pair := [] in
  let sig_pair := sig_pair ++ [10] in
  l1 <- encode_varint (len public_key_bytes) ;;
  let sig_pair := sig_pair ++ l1 in
  let sig_pair := sig_pair ++ public_key_bytes in
  let sig_pair :=
    if String.eqb key_type "ed25519" then sig_pair ++ [26]
    else sig_pair ++ [50] in
  l2 <- encode_varint (len signature_bytes) ;;
  let sig_pair := sig_pair ++ l2 in
  let sig_pair := sig_pair ++ signature_bytes in
  let signature_map := [10] in
  l3 <- encode_varint (len sig_pair) ;;
  let signature_map := signature_map ++ l3 in
  let signature_map := signature_map ++ sig_pair in
  Ok signature_map.

(** ** Reading a length-delimited field back *)

(** One iteration of the parsing loop of scripts/ex_deposit.py
    [sign_with_hedera_sdk]: the header byte at [pos], and for wire type 2 the
    varint length and the payload slice.  Returns the field number, the wire
    type, the payload (if any) and the position after the field. *)
Definition read_field (returned_bytes : bytes) (pos : Z)
  : result (Z * Z * option bytes * Z) :=
  field_header <- getitem returned_bytes pos ;;
  let pos := pos + 1 in
  let field_number := Z.shiftr field_header 3 in
  let wire_type := Z.land field_header 7 in
  if wire_type =? 2 then
    lp <- decode_varint returned_bytes pos ;;
    let length := fst lp in
    let pos := snd lp in
    let data := slice returned_bytes pos (pos + length) in
    let pos := pos + length in
    Ok (field_number, wire_type, Some data, pos)
  else Ok (field_number, wire_type, None, pos).

(** ** Reference descriptions of the varint wire format *)

(** The spec's wording of the encoder: the number of continuation bytes is
    fixed by the bit length of the value (one per 7 bits beyond the first 7);
    each carries the low 7 bits plus the continuation bit, and the final byte
    carries the last 7 bits alone. *)
Fixpoint base128_groups (more : nat) (v : Z) : list Z :=
  match more with
  | O => [v mod 128]
  | S more' => (v mod 128 + 128) :: base128_groups more' (v / 128)
  end.

Definition base128_varint (v : Z) : list Z :=
  base128_groups (Z.to_nat (Z.log2 v / 7)) v.

(** The integer a varint byte sequence stands for (little-endian groups of
    seven bits). *)
Definition varint_value (bs : list Z) : Z :=
  fold_right (fun b acc => b mod 128 + 128 * acc) 0 bs.

(** Well-formed varint: continuation bit on every byte but the last. *)
Inductive varint_wire : list Z -> Prop :=
| wire_last (b : Z) : 0 <= b < 128 -> varint_wire [b]
| wire_more (b : Z) (bs : list Z) :
    128 <= b < 256 -> varint_wire bs -> varint_wire (b :: bs).

(** ** Reference layout of the signature map *)

(** The spec's two steps: the signature pair (field 1 = public key, then the
    signature under [sig_tag]), wrapped as field 1 of the map. *)
Definition sig_pair_layout (sig_tag : Z) (pub sig : bytes) : bytes :=
  [10] ++ base128_varint (len pub) ++ pub
  ++ [sig_tag] ++ base128_varint (len sig) ++ sig.

Definition signature_map_layout (sig_tag : Z) (pub sig : bytes) : bytes :=
  [10] ++ base128_varint (len (sig_pair_layout sig_tag pub sig))
  ++ sig_pair_layout sig_tag pub sig.

(** ** Reference reading of a decimal numeral *)

(** The number a string of ASCII digits denotes, most significant digit
    first. *)
Definition decimal_value (digits : list Z) : Z :=
  fold_left (fun acc d => 10 * acc + (d - 48)) digits 0.

(** A canonical ASCII decimal numeral: digits only, and no leading zero
    except for the numeral [0] itself. *)
Definition decimal_numeral (digits : list Z) : Prop :=
  Forall (fun d => 48 <= d <= 57) digits
  /\ digits <> []
  /\ (hd 0 digits = 48 -> digits = [48]).

(** ** [str.encode('utf-8')], [bytes.decode('utf-8')] and [base64.b64encode] *)

(** UTF-8 bytes of one code point; lone surrogates (and values that are no
    code point at all) cannot be encoded. *)
Definition utf8_encode_char (c : Z) : result bytes :=
  if c <? 0 then Raise UnicodeEncodeError
  else if c <? 128 then Ok [c]
  else if c <? 2048 then
    Ok [Z.lor 192 (Z.shiftr c 6); Z.lor 128 (Z.land c 63)]
  else if c <? 65536 then
    if (55296 <=? c) && (c <=? 57343) then Raise UnicodeEncodeError
    else Ok [Z.lor 224 (Z.shiftr c 12);
             Z.lor 128 (Z.land (Z.shiftr c 6) 63);
             Z.lor 128 (Z.land c 63)]
  else if c <? 1114112 then
    Ok [Z.lor 240 (Z.shiftr c 18);
        Z.lor 128 (Z.land (Z.shiftr c 12) 63);
        Z.lor 128 (Z.land (Z.shiftr c 6) 63);
        Z.lor 128 (Z.land c 63)]
  else Raise UnicodeEncodeError.

(** [s.encode('utf-8')] *)
Fixpoint utf8_encode (s : str) : result bytes :=
  match s with
  | [] => Ok []
  | c :: s' =>
      bc <- utf8_encode_char c ;;
      bs <- utf8_encode s' ;;
      Ok (bc ++ bs)
  end.

Definition is_continuation (b : Z) : bool := (128 <=? b) && (b <=? 191).

(** [b.decode('utf-8')], strict: overlong forms, surrogates and values above
    U+10FFFF are rejected. *)
Fixpoint utf8_decode (b : bytes) : result str :=
  match b with
  | [] => Ok []
  | b0 :: rest =>
      if (0 <=? b0) && (b0 <? 128) then
        s <- utf8_decode rest ;; Ok (b0 :: s)
      else if (194 <=? b0) && (b0 <=? 223) then
        match rest with
        | b1 :: rest' =>
            if is_continuation b1 then
              s <- utf8_decode rest' ;;
              Ok (Z.lor (Z.shiftl (Z.land b0 31) 6) (Z.land b1 63) :: s)
            else Raise UnicodeDecodeError
        | _ => Raise UnicodeDecodeError
        end
      else if (224 <=? b0) && (b0 <=? 239) then
        match rest with
        | b1 :: b2 :: rest' =>
            if is_continuation b1 && is_continuation b2
               && negb ((b0 =? 224) && (b1 <? 160))
               && negb ((b0 =? 237) && (159 <? b1)) then
              s <- utf8_decode rest' ;;
              Ok (Z.lor (Z.shiftl (Z.land b0 15) 12)
                    (Z.lor (Z.shiftl (Z.land b1 63) 6) (Z.land b2 63)) :: s)
            else Raise UnicodeDecodeError
        | _ => Raise UnicodeDecodeError
        end
      else if (240 <=? b0) && (b0 <=? 244) then
        match rest with
        | b1 :: b2 :: b3 :: rest' =>
            if is_continuation b1 && is_continuation b2 && is_continuation b3
               && negb ((b0 =? 240) && (b1 <? 144))
               && negb ((b0 =? 244) && (143 <? b1)) then
              s <- utf8_decode rest' ;;
              Ok (Z.lor (Z.shiftl (Z.land b0 7) 18)
                    (Z.lor (Z.shiftl (Z.land b1 63) 12)
                       (Z.lor (Z.shiftl (Z.land b2 63) 6) (Z.land b3 63))) :: s)
            else Raise UnicodeDecodeError
        | _ => Raise UnicodeDecodeError
        end
      else Raise UnicodeDecodeError
  end.

(** The standard base64 alphabet, RFC 4648 section 4: [A-Z a-z 0-9 + /]. *)
Definition b64_char (i : Z) : Z :=
  if i <? 26 then 65 + i
  else if i <? 52 then 97 + (i - 26)
  else if i <? 62 then 48 + (i - 52)
  else if i =? 62 then 43
  else 47.

(** [base64.b64encode(data)]: three bytes become four characters; a final
    group of one or two bytes is padded with [=]. *)
Fixpoint b64encode (data : bytes) : bytes :=
  match data with
  | [] => []
  | [a] =>
      let n := Z.shiftl a 16 in
      [b64_char (Z.land (Z.shiftr n 18) 63);
       b64_char (Z.land (Z.shiftr n 12) 63); 61; 61]
  | [a; b] =>
      let n := Z.lor (Z.shiftl a 16) (Z.shiftl b 8) in
      [b64_char (Z.land (Z.shiftr n 18) 63);
       b64_char (Z.land (Z.shiftr n 12) 63);
       b64_char (Z.land (Z.shiftr n 6) 63); 61]
  | a :: b :: c :: rest =>
      let n := Z.lor (Z.lor (Z.shiftl a 16) (Z.shiftl b 8)) c in
      b64_char (Z.land (Z.shiftr n 18) 63)
      :: b64_char (Z.land (Z.shiftr n 12) 63)
      :: b64_char (Z.land (Z.shiftr n 6) 63)
      :: b64_char (Z.land n 63)
      :: b64encode rest
  end.

(** A character of the standard alphabet; [-] and [_] of the URL-safe
    alphabet are not among them. *)
Definition b64_alphabet (c : Z) : bool :=
  ((65 <=? c) && (c <=? 90)) || ((97 <=? c) && (c <=? 122))
  || ((48 <=? c) && (c <=? 57)) || (c =? 43) || (c =? 47).

(** Padded standard base64 text: whole groups of four alphabet characters,
    the last group possibly ending in one or two [=]. *)
Fixpoint b64_text (t : list Z) : bool :=
  match t with
  | [] => true
  | [c1; c2; c3; c4] =>
      b64_alphabet c1 && b64_alphabet c2
      && ((b64_alphabet c3 && (b64_alphabet c4 || (c4 =? 61)))
          || ((c3 =? 61) && (c4 =? 61)))
  | c1 :: c2 :: c3 :: c4 :: t' =>
      b64_alphabet c1 && b64_alphabet c2 && b64_alphabet c3 && b64_alphabet c4
      && b64_text t'
  | _ => false
  end.

(** ** Key objects *)

(** What the scripts ask of a loaded private-key object.  The first two are
    the [cryptography] Ed25519 methods
    [private_key.public_key().public_bytes(Raw, Raw)] and
    [private_key.sign(data)]; the last two are the [ecdsa] methods
    [private_key.get_verifying_key().to_string("compressed")] and
    [private_key.sign(data, sigencode=sigencode_string)].  On a key that
    loaded, each of them returns a [bytes] object; what the library computes
    is left open. *)
Class KeyObject (K : Type) : Type := {
  public_bytes_raw : K -> bytes;
  sign : K -> bytes -> bytes;
  verifying_key_compressed : K -> bytes;
  sign_string : K -> bytes -> bytes
}.

(** new_auth.py [get_public_key_bytes] *)
Definition get_public_key_bytes {K : Type} `{KeyObject K}
    (private_key : K) (key_type : string) : bytes :=
  if String.eqb key_type "ed25519" then public_bytes_raw private_key
  else verifying_key_compressed private_key.

(** new_auth.py [sign_message] *)
Definition sign_message {K : Type} `{KeyObject K}
    (private_key : K) (message : bytes) (key_type : string) : bytes :=
  if String.eqb key_type "ed25519" then sign private_key message
  else sign_string private_key message.

(** ** The verification request *)

(** The JSON body posted to [/api/v1/auth/verify]. *)
Record verify_body : Type := {
  challenge_id : str;
  account_id : str;
  message_signed_plain_text : str;
  signature_map_base64 : str;
  sig_type : string
}.

(** order_lifecycle_3.py [authenticate]: the public key taken from the loaded
    key, and step 1b up to the request body; the same statements make up
    scripts/ex_deposit.py [authenticate].  [challenge_id] and [message] are
    the two fields read from the challenge response. *)
Definition authenticate_verify_body {K : Type} `{KeyObject K}
    (private_key : K) (account_id challenge_id message : str)
  : result verify_body :=
  let public_key_bytes := public_bytes_raw private_key in
  message_bytes <- utf8_encode message ;;
  hip820_bytes <- build_hip820 message_bytes ;;
  let signature := sign private_key hip820_bytes in
  signature_map <- build_signature_map public_key_bytes signature ;;
  b64 <- utf8_decode (b64encode signature_map) ;;
  Ok {| challenge_id := challenge_id;
        account_id := account_id;
        message_signed_plain_text := message;
        signature_map_base64 := b64;
        sig_type := "ed25519" |}.

(** new_auth.py [authenticate], from the public key to step 5: the payload
    that [generate_curl_command] writes out.  [KEY_TYPE] and [ACCOUNT_ID] are
    the module constants. *)
Definition new_auth_verify_payload {K : Type} `{KeyObject K}
    (KEY_TYPE : string) (private_key : K)
    (ACCOUNT_ID challenge_id canonical_message : str) : result verify_body :=
  let public_key_bytes := get_public_key_bytes private_key KEY_TYPE in
  canonical_bytes <- utf8_encode canonical_message ;;
  hip820_bytes <- build_hip820 canonical_bytes ;;
  let signature := sign_message private_key hip820_bytes KEY_TYPE in
  signature_map <-
    build_signature_map_protobuf public_key_bytes signature KEY_TYPE ;;
  signature_map_base64 <- utf8_decode (b64encode signature_map) ;;
  Ok {| challenge_id := challenge_id;
        account_id := ACCOUNT_ID;
        message_signed_plain_text := canonical_message;
        signature_map_base64 := signature_map_base64;
        sig_type := KEY_TYPE |}.

(** The spec's operations, in the spec's words and not through the code:
    [wrapMessage] is the fixed prefix, the decimal length, one newline and the
    message; [buildSignatureMap] is the two-step layout with the reference
    varint and tag 0x1a. *)
Definition spec_wrapMessage (canonicalMessage : bytes) : bytes :=
  hip820_prefix ++ py_str (len canonicalMessage) ++ [10] ++ canonicalMessage.

Definition spec_buildSignatureMap (publicKey signature : bytes) : bytes :=
  signature_map_layout 26 publicKey signature.

(** The spec's end-to-end contract:
    base64(buildSignatureMap(publicKeyBytesOf(privateKey),
    sign(privateKey, wrapMessage(utf8Bytes(challengeMessage))))). *)
Definition spec_buildAuthCredential {K : Type} `{KeyObject K}
    (privateKey : K) (challengeMessage : str) : result str :=
  m <- utf8_encode challengeMessage ;;
  Ok (b64encode
        (spec_buildSignatureMap (public_bytes_raw privateKey)
           (sign privateKey (spec_wrapMessage m)))).

(** ** Key loading *)

(** ASCII whitespace as [bytes.fromhex] skips it. *)
Definition is_space (c : Z) : bool :=
  (c =? 32) || ((9 <=? c) && (c <=? 13)).

Definition hex_digit (c : Z) : option Z :=
  if (48 <=? c) && (c <=? 57) then Some (c - 48)
  else if (97 <=? c) && (c <=? 102) then Some (c - 87)
  else if (65 <=? c) && (c <=? 70) then Some (c - 55)
  else None.

(** [bytes.fromhex(s)]: two hex digits per byte, whitespace allowed between
    bytes; anything else is a ValueError. *)
Fixpoint bytes_fromhex (s : str) : result bytes :=
  match s with
  | [] => Ok []
  | c :: rest =>
      if is_space c then bytes_fromhex rest
      else
        match hex_digit c, rest with
        | Some top, d :: rest' =>
            match hex_digit d with
            | Some bot =>
                bs <- bytes_fromhex rest' ;;
                Ok (Z.shiftl top 4 + bot :: bs)
            | None => Raise ValueError
            end
        | _, _ => Raise ValueError
        end
  end.

(** new_auth.py [load_ed25519_private_key]; [load_der_private_key] is
    [cryptography.hazmat.primitives.serialization.load_der_private_key] with
    [password=None]. *)
Definition load_ed25519_private_key {K : Type}
    (load_der_private_key : bytes -> result K) (der_hex : str) : result K :=
  private_key_der <- bytes_fromhex der_hex ;;
  load_der_private_key private_key_der.

(** The spec's name for a key-loading failure; no class of that name exists
    in the scripts or in the packages they import. *)
Definition KeyLoadError : exn := LibraryError "KeyLoadError".

(** ** Reference reading of base64 text *)

(** Position of a character in the standard alphabet. *)
Definition b64_index (c : Z) : option Z :=
  if (65 <=? c) && (c <=? 90) then Some (c - 65)
  else if (97 <=? c) && (c <=? 122) then Some (c - 71)
  else if (48 <=? c) && (c <=? 57) then Some (c + 4)
  else if c =? 43 then Some 62
  else if c =? 47 then Some 63
  else None.

(** RFC 4648 read backwards: every group of four characters gives 24 bits,
    that is three bytes; a final group ending in [==] gives one byte and one
    ending in [=] gives two.  Text of any other shape has no reading. *)
Fixpoint b64_unpack (t : list Z) : option bytes :=
  match t with
  | [] => Some []
  | c1 :: c2 :: c3 :: c4 :: rest =>
      match b64_index c1, b64_index c2 with
      | Some s1, Some s2 =>
          if c3 =? 61 then
            match c4 =? 61, rest with
            | true, [] => Some [(s1 * 64 + s2) / 16]
            | _, _ => None
            end
          else
            match b64_index c3 with
            | Some s3 =>
                if c4 =? 61 then
                  match rest with
                  | [] =>
                      let n := (s1 * 64 + s2) * 64 + s3 in
                      Some [n / 1024; (n / 4) mod 256]
                  | _ => None
                  end
                else
                  match b64_index c4 with
                  | Some s4 =>
                      let n := ((s1 * 64 + s2) * 64 + s3) * 64 + s4 in
                      match b64_unpack rest with
                      | Some r =>
                          Some (n / 65536 :: (n / 256) mod 256 :: n mod 256 :: r)
                      | None => None
                      end
                  | None => None
                  end
            | None => None
            end
      | _, _ => None
      end
  | _ => None
  end.

(** ** A key object to run the flow on *)

(** A stand-in with no cryptographic content, for evaluating the request
    builders on concrete inputs: the key is its own public key and a
    "signature" is the first 64 bytes of key, message and zero padding,
    each reduced to a byte. *)
Definition demo_key : KeyObject bytes := {|
  public_bytes_raw := fun k => k;
  sign := fun k m => map (fun b => b mod 256) (firstn 64 (k ++ m ++ repeat 0 64));
  verifying_key_compressed := fun k => 2 :: k;
  sign_string := fun k m => map (fun b => b mod 256) (firstn 64 (m ++ k ++ repeat 0 64))
|}.

Definition demo_verify (public_key message signature : bytes) : bool :=
  if list_eq_dec Z.eq_dec signature (@sign _ demo_key public_key message)
  then true else false.

(** ** Signing a deposit transaction (scripts/ex_deposit.py) *)

(** What [sign_with_hedera_sdk] asks of the Hedera SDK key it loaded:
    [bytes(hedera_private_key.sign(body_bytes))] and
    [bytes(hedera_private_key.getPublicKey().toBytesRaw())]. *)
Class HederaKey (K : Type) : Type := {
  hedera_sign : K -> bytes -> bytes;
  hedera_public_raw : K -> bytes
}.

(** The [while pos < len(returned_bytes)] loop of [sign_with_hedera_sdk],
    whose body is [read_field] followed by the assignment to [body_bytes].
    Every iteration moves [pos] forward, so [todo], which starts at the
    number of bytes, bounds the iterations that are left. *)
Fixpoint extract_body_loop (todo : nat) (returned_bytes : bytes) (pos : Z)
    (body_bytes : option bytes) : result (option bytes) :=
  if pos <? len returned_bytes then
    match todo with
    | O => Ok body_bytes
    | S todo' =>
        f <- read_field returned_bytes pos ;;
        let '(field_number, wire_type, data, pos) := f in
        let body_bytes :=
          match data with
          | Some data => if field_number =? 1 then Some data else body_bytes
          | None => body_bytes
          end in
        extract_body_loop todo' returned_bytes pos body_bytes
    end
  else Ok body_bytes.

Definition extract_body_bytes (returned_bytes : bytes) : result (option bytes) :=
  extract_body_loop (Z.to_nat (len returned_bytes)) returned_bytes 0 None.

(** The bytes of the signed transaction that [sign_with_hedera_sdk] assembles
    once it has [body_bytes]: the signature map written inline, then field 1
    = body and field 2 = signature map. *)
Definition assemble_signed_transaction {K : Type} `{HederaKey K}
    (hedera_private_key : K) (body_bytes : bytes) : result bytes :=
  let signature_bytes := hedera_sign hedera_private_key body_bytes in
  let public_key_bytes := hedera_public_raw hedera_private_key in
  let sig_pair := [] in
  l1 <- encode_varint (len public_key_bytes) ;;
  let sig_pair := sig_pair ++ ([10] ++ l1 ++ public_key_bytes) in
  l2 <- encode_varint (len signature_bytes) ;;
  let sig_pair := sig_pair ++ ([26] ++ l2 ++ signature_bytes) in
  l3 <- encode_varint (len sig_pair) ;;
  let signature_map := [10] ++ l3 ++ sig_pair in
  let signed_transaction := [] in
  l4 <- encode_varint (len body_bytes) ;;
  let signed_transaction := signed_transaction ++ ([10] ++ l4 ++ body_bytes) in
  l5 <- encode_varint (len signature_map) ;;
  let signed_transaction := signed_transaction ++ ([18] ++ l5 ++ signature_map) in
  Ok signed_transaction.

(** scripts/ex_deposit.py [sign_with_hedera_sdk], from the [try] on:
    [returned_bytes] is what [base64.b64decode(tx_base64)] gave and
    [hedera_private_key] the key [PrivateKey.fromBytes] loaded.  A missing
    body raises inside the [try]; every exception ends in [return None]. *)
Definition sign_with_hedera_sdk {K : Type} `{HederaKey K}
    (hedera_private_key : K) (returned_bytes : bytes) : option str :=
  match extract_body_bytes returned_bytes with
  | Ok (Some body_bytes) =>
      match
        (signed_transaction <-
           assemble_signed_transaction hedera_private_key body_bytes ;;
         utf8_decode (b64encode signed_transaction))
      with
      | Ok transaction_base64 => Some transaction_base64
      | Raise _ => None
      end
  | Ok None => None
  | Raise _ => None
  end.

(** Reference writer of a protobuf message made of length-delimited fields
    with one-byte tags, and the field the loop above is after. *)
Definition write_field (f : Z * bytes) : bytes :=
  [fst f] ++ base128_varint (len (snd f)) ++ snd f.

Definition write_fields (fields : list (Z * bytes)) : bytes :=
  List.concat (map write_field fields).

Definition last_field_1 (fields : list (Z * bytes)) : option bytes :=
  fold_left (fun found f => if Z.shiftr (fst f) 3 =? 1 then Some (snd f) else found)
    fields None.

(** ** The ECDSA key loader (new_auth.py) *)

(** new_auth.py [load_ecdsa_secp256k1_private_key], with the [ecdsa] package
    installed; [from_string] is [SigningKey.from_string(_, curve=SECP256k1)].
    [der_bytes[-32:]] is the slice from index -32 to the end. *)
Definition load_ecdsa_secp256k1_private_key {K : Type}
    (from_string : bytes -> result K) (der_hex : str) : result K :=
  der_bytes <- bytes_fromhex der_hex ;;
  let raw_key := slice der_bytes (-32) (len der_bytes) in
  from_string raw_key.

(** ** Requests with retries (order_lifecycle_3.py) *)

Definition MAX_RETRIES : Z := 3.
Definition RETRY_DELAY : Z := 2.
Definition REQUEST_TIMEOUT : Z := 30.

Inductive http_verb : Type := GET | POST | DELETE.

(** The [except] clauses of [safe_request], in their order. *)
Inductive request_exception : Type :=
| Timeout
| ConnectionError
| RequestException
| OtherException.

(** How one call of [requests.get/post/delete] ends. *)
Inductive attempt_outcome (R : Type) : Type :=
| Responded (response : R)
| Failed (e : request_exception).
Arguments Responded {R} response.
Arguments Failed {R} e.

(** What [safe_request] does to the outside world, console and log output
    apart. *)
Inductive effect : Type :=
| Request (verb : http_verb) (url : str) (timeout : Z)
| Sleep (seconds : Z).

Definition str_eqb (a b : str) : bool :=
  if list_eq_dec Z.eq_dec a b then true else false.

(** The [if/elif] chain on [method.upper()]; [upper] is [str.upper]. *)
Definition verb_of_method (upper : str -> str) (method : str) : option http_verb :=
  if str_eqb (upper method) (ascii_bytes "GET") then Some GET
  else if str_eqb (upper method) (ascii_bytes "POST") then Some POST
  else if str_eqb (upper method) (ascii_bytes "DELETE") then Some DELETE
  else None.

(** The [for attempt in range(MAX_RETRIES)] loop of [safe_request];
    [network attempt] is how the request of that attempt ends, [done] the
    effects so far. *)
Fixpoint safe_request_loop {R : Type} (upper : str -> str)
    (network : Z -> attempt_outcome R) (method url : str) (timeout : Z)
    (attempts : list Z) (done : list effect) : list effect * option R :=
  match attempts with
  | [] => (done, None)
  | attempt :: attempts' =>
      match verb_of_method upper method with
      | None => (done, None)
      | Some verb =>
          let done := done ++ [Request verb url timeout] in
          match network attempt with
          | Responded response => (done, Some response)
          | Failed _ =>
              let done :=
                if attempt <? MAX_RETRIES - 1 then done ++ [Sleep RETRY_DELAY]
                else done in
              safe_request_loop upper network method url timeout attempts' done
          end
      end
  end.

(** order_lifecycle_3.py [safe_request]; [timeout] is the caller's keyword
    argument, if any. *)
Definition safe_request {R : Type} (upper : str -> str)
    (network : Z -> attempt_outcome R) (method url : str) (timeout : option Z)
  : list effect * option R :=
  let timeout := match timeout with Some t => t | None => REQUEST_TIMEOUT end in
  safe_request_loop upper network method url timeout
    (map Z.of_nat (seq 0 (Z.to_nat MAX_RETRIES))) [].

(** ** Reference notions for the further properties *)

(** A code point that has UTF-8 bytes: in range and no surrogate. *)
Definition utf8_encodable (c : Z) : bool :=
  (0 <=? c) && (c <? 1114112) && negb ((55296 <=? c) && (c <=? 57343)).

(** [k] requests with a pause before each one but the first. *)
Definition attempts_with_pauses (request pause : effect) (k : nat) : list effect :=
  match k with
  | O => []
  | S k' => request :: List.concat (repeat [pause; request] k')
  end.

(** A stand-in Hedera key, as [demo_key] above. *)
Definition demo_hedera_key : HederaKey bytes := {|
  hedera_sign := fun k m => map (fun b => b mod 256) (firstn 64 (k ++ m ++ repeat 0 64));
  hedera_public_raw := fun k => k
|}.

(* PROPERTIES *)

(** * Properties *)

(** ** Lengths, [bytes(...)] and indexing *)

Lemma len_app {A : Type} (l1 l2 : list A) : len (l1 ++ l2) = len l1 + len l2.
Proof. unfold len. rewrite length_app. lia. Qed.

Lemma len_cons {A : Type} (a : A) (l : list A) : len (a :: l) = 1 + len l.
Proof. unfold len. simpl List.length. lia. Qed.

Lemma len_nil {A : Type} : len (@nil A) = 0.
Proof. reflexivity. Qed.

Lemma len_nonneg {A : Type} (l : list A) : 0 <= len l.
Proof. unfold len. lia. Qed.

Ltac len_norm := repeat (rewrite len_app || rewrite len_cons || rewrite len_nil).

Lemma bytes_of_ints_Ok (l : list Z) :
  Forall (fun b => 0 <= b < 256) l -> bytes_of_ints l = Ok l.
Proof.
  intros H. unfold bytes_of_ints.
  replace (forallb is_byte l) with true; [reflexivity|].
  symmetry. apply forallb_forall. intros x Hx.
  rewrite Forall_forall in H. specialize (H x Hx).
  unfold is_byte. apply andb_true_intro. split; [apply Z.leb_le | apply Z.ltb_lt]; lia.
Qed.

(** Reading the element that follows a known prefix. *)
Lemma getitem_app (pre : list Z) (x : Z) (post : list Z) :
  getitem (pre ++ x :: post) (len pre) = Ok x.
Proof.
  unfold getitem. pose proof (len_nonneg pre) as Hp.
  destruct (Z.ltb_spec (len pre) 0) as [Hneg|_]; [lia|].
  rewrite len_app, len_cons. pose proof (len_nonneg post) as Hq.
  destruct (Z.leb_spec 0 (len pre)); [|lia].
  destruct (Z.ltb_spec (len pre) (len pre + (1 + len post))); [|lia].
  simpl. unfold len. rewrite Nat2Z.id.
  rewrite app_nth2 by lia. rewrite Nat.sub_diag. reflexivity.
Qed.

(** ** Bit-level facts used by the varint codec *)

Lemma land_127_range (v : Z) : 0 <= Z.land v 127 < 128.
Proof.
  change 127 with (Z.ones 7). rewrite Z.land_ones by lia.
  change (2 ^ 7) with 128. apply Z.mod_pos_bound. lia.
Qed.

Lemma land_127_small (v : Z) : 0 <= v <= 127 -> Z.land v 127 = v.
Proof.
  intros H. change 127 with (Z.ones 7). rewrite Z.land_ones by lia.
  apply Z.mod_small. change (2 ^ 7) with 128. lia.
Qed.

Lemma land_128_small (x : Z) : 0 <= x < 128 -> Z.land x 128 = 0.
Proof.
  intros H. apply Z.bits_inj'. intros n Hn.
  rewrite Z.land_spec, Z.bits_0.
  destruct (Z.eq_dec n 7) as [->|Hne].
  - replace (Z.testbit x 7) with false; [reflexivity|].
    symmetry. destruct (Z.eq_dec x 0) as [->|Hx0]; [apply Z.bits_0|].
    apply Z.bits_above_log2; [lia|].
    apply Z.log2_lt_pow2; [lia|]. change (2 ^ 7) with 128. lia.
  - replace (Z.testbit 128 n) with false; [apply andb_false_r|].
    symmetry. change 128 with (2 ^ 7). apply Z.pow2_bits_false. lia.
Qed.

Lemma lor_128 (x : Z) : 0 <= x < 128 -> Z.lor x 128 = x + 128.
Proof.
  intros H. pose proof (Z.add_lor_land x 128) as E.
  rewrite (land_128_small x H) in E. lia.
Qed.

Lemma continuation_byte_low (v : Z) :
  Z.land (Z.lor (Z.land v 127) 128) 127 = Z.land v 127.
Proof.
  rewrite Z.land_lor_distr_l.
  change (Z.land 128 127) with 0. rewrite Z.lor_0_r.
  rewrite <- Z.land_assoc. reflexivity.
Qed.

Lemma continuation_byte_high (v : Z) :
  Z.land (Z.lor (Z.land v 127) 128) 128 = 128.
Proof.
  rewrite Z.land_lor_distr_l.
  rewrite <- Z.land_assoc. change (Z.land 127 128) with 0.
  rewrite Z.land_0_r. reflexivity.
Qed.

Lemma split_low7 (v : Z) :
  Z.lor (Z.land v 127) (Z.shiftl (Z.shiftr v 7) 7) = v.
Proof.
  change 127 with (Z.ones 7).
  rewrite <- Z.ldiff_ones_r by lia.
  rewrite Z.lor_comm. apply Z.lor_ldiff_and.
Qed.

(** ** The encoding loop *)

Lemma encode_varint_loop_eq (value : Z) (result : list Z) :
  encode_varint_loop value result =
  if Z_lt_dec 127 value
  then encode_varint_loop (Z.shiftr value 7)
         (result ++ [Z.lor (Z.land value 127) 128])
  else result ++ [Z.land value 127].
Proof.
  rewrite encode_varint_loop_equation_1.
  destruct (Z_lt_dec 127 value); reflexivity.
Qed.

(** Induction along the iterations of the loop. *)
Lemma varint_ind (P : Z -> Prop) :
  (forall v, v <= 127 -> P v) ->
  (forall v, 127 < v -> P (Z.shiftr v 7) -> P v) ->
  forall v, P v.
Proof.
  intros Hlast Hmore v.
  destruct (Z_le_gt_dec v 127) as [Hle|Hgt]; [now apply Hlast|].
  assert (Hv : 0 <= v) by lia. clear Hgt. revert v Hv.
  apply (Z_lt_induction P). intros n IH.
  destruct (Z_le_gt_dec n 127) as [Hle|Hgt]; [now apply Hlast|].
  apply Hmore; [lia|]. apply IH.
  rewrite Z.shiftr_div_pow2 by lia. change (2 ^ 7) with 128.
  split; [apply Z.div_pos; lia | apply Z.div_lt; lia].
Qed.

Lemma encode_varint_loop_acc (value : Z) :
  forall result, encode_varint_loop value result = result ++ encode_varint_loop value [].
Proof.
  induction value as [v Hv | v Hv IH] using varint_ind; intros acc.
  - rewrite (encode_varint_loop_eq v acc), (encode_varint_loop_eq v []).
    destruct (Z_lt_dec 127 v); [lia | reflexivity].
  - rewrite (encode_varint_loop_eq v acc), (encode_varint_loop_eq v []).
    destruct (Z_lt_dec 127 v); [|lia].
    rewrite (IH (acc ++ _)), (IH ([] ++ _)).
    rewrite <- app_assoc. reflexivity.
Qed.

Lemma encode_varint_loop_last (v : Z) :
  v <= 127 -> encode_varint_loop v [] = [Z.land v 127].
Proof.
  intros H. rewrite encode_varint_loop_eq.
  destruct (Z_lt_dec 127 v); [lia | reflexivity].
Qed.

Lemma encode_varint_loop_more (v : Z) :
  127 < v ->
  encode_varint_loop v [] =
  Z.lor (Z.land v 127) 128 :: encode_varint_loop (Z.shiftr v 7) [].
Proof.
  intros H. rewrite encode_varint_loop_eq.
  destruct (Z_lt_dec 127 v); [|lia].
  rewrite encode_varint_loop_acc. reflexivity.
Qed.

Lemma encode_varint_loop_bytes (v : Z) :
  Forall (fun b => 0 <= b < 256) (encode_varint_loop v []).
Proof.
  induction v as [v Hv | v Hv IH] using varint_ind.
  - rewrite encode_varint_loop_last by assumption.
    constructor; [|constructor]. pose proof (land_127_range v). lia.
  - rewrite encode_varint_loop_more by assumption.
    constructor; [|exact IH].
    pose proof (land_127_range v). rewrite lor_128 by assumption. lia.
Qed.

(** [encode_varint] never raises: the list handed to [bytes(...)] always holds
    byte values. *)
Lemma encode_varint_Ok (v : Z) : encode_varint v = Ok (encode_varint_loop v []).
Proof. apply bytes_of_ints_Ok, encode_varint_loop_bytes. Qed.

(** ** Decoding what the encoder wrote *)

(** The decoding loop unfolds like the [while] statement it models. *)
Lemma decode_varint_loop_step (data : bytes) (value shift pos : Z) :
  decode_varint_loop (Z.to_nat (len data - pos)) data value shift pos =
  if pos <? len data then
    byte <- getitem data pos ;;
    if Z.land byte 128 =? 0
    then Ok (Z.lor value (Z.shiftl (Z.land byte 127) shift), pos + 1)
    else decode_varint_loop (Z.to_nat (len data - (pos + 1))) data
           (Z.lor value (Z.shiftl (Z.land byte 127) shift)) (shift + 7) (pos + 1)
  else Ok (value, pos).
Proof.
  destruct (Z.ltb_spec pos (len data)) as [Hlt|Hge].
  - replace (Z.to_nat (len data - pos)) with (S (Z.to_nat (len data - (pos + 1)))) by lia.
    reflexivity.
  - replace (Z.to_nat (len data - pos)) with O by lia. reflexivity.
Qed.

(** One iteration of the decoding loop on the byte [x] that follows [pre]. *)
Lemma decode_varint_loop_at (pre : bytes) (x : Z) (post : bytes) (value shift : Z) :
  decode_varint_loop (Z.to_nat (len (pre ++ x :: post) - len pre))
    (pre ++ x :: post) value shift (len pre) =
  if Z.land x 128 =? 0
  then Ok (Z.lor value (Z.shiftl (Z.land x 127) shift), len pre + 1)
  else decode_varint_loop
         (Z.to_nat (len ((pre ++ [x]) ++ post) - len (pre ++ [x])))
         ((pre ++ [x]) ++ post)
         (Z.lor value (Z.shiftl (Z.land x 127) shift)) (shift + 7) (len (pre ++ [x])).
Proof.
  rewrite decode_varint_loop_step.
  assert (Hlt : (len pre <? len (pre ++ x :: post)) = true).
  { apply Z.ltb_lt. rewrite len_app, len_cons. pose proof (len_nonneg post). lia. }
  rewrite Hlt, getitem_app. simpl bind.
  destruct (Z.land x 128 =? 0); [reflexivity|].
  rewrite <- (app_assoc pre [x] post). simpl app.
  replace (len (pre ++ [x])) with (len pre + 1); [reflexivity|].
  rewrite len_app. reflexivity.
Qed.

(** Decoding the varint of [v] that sits between [pre] and [post], with the
    bits in [acc] already collected and [shift] bits consumed. *)
Lemma decode_encode_loop (v : Z) :
  0 <= v ->
  forall (pre post : bytes) (acc shift : Z),
    0 <= shift ->
    decode_varint_loop
      (Z.to_nat (len (pre ++ encode_varint_loop v [] ++ post) - len pre))
      (pre ++ encode_varint_loop v [] ++ post) acc shift (len pre)
    = Ok (Z.lor acc (Z.shiftl v shift), len pre + len (encode_varint_loop v [])).
Proof.
  induction v as [v Hv | v Hv IH] using varint_ind; intros Hnn pre post acc shift Hs.
  - rewrite encode_varint_loop_last by assumption.
    rewrite land_127_small by lia. simpl app.
    rewrite decode_varint_loop_at.
    rewrite land_128_small by lia. simpl.
    rewrite land_127_small by lia. reflexivity.
  - rewrite encode_varint_loop_more by assumption.
    set (rest := encode_varint_loop (Z.shiftr v 7) []) in *.
    simpl app. rewrite decode_varint_loop_at.
    rewrite continuation_byte_high, continuation_byte_low. simpl Z.eqb. cbv iota.
    assert (Hq : 0 <= Z.shiftr v 7) by (apply Z.shiftr_nonneg; lia).
    rewrite (IH Hq) by lia.
    f_equal. f_equal.
    + rewrite <- Z.lor_assoc. f_equal.
      replace (shift + 7) with (7 + shift) by lia.
      rewrite <- (Z.shiftl_shiftl _ 7 shift) by lia.
      rewrite <- Z.shiftl_lor. rewrite split_low7. reflexivity.
    + len_norm. lia.
Qed.

(** Left inverse at any position: a varint embedded in a buffer is read back
    together with the position just behind it. *)
Lemma decode_varint_encode_at (v : Z) (pre post : bytes) :
  0 <= v ->
  decode_varint (pre ++ encode_varint_loop v [] ++ post) (len pre)
  = Ok (v, len pre + len (encode_varint_loop v [])).
Proof.
  intros Hv. unfold decode_varint.
  rewrite decode_encode_loop by lia.
  rewrite Z.shiftl_0_r, Z.lor_0_l. reflexivity.
Qed.

(** ** Agreement with the reference description *)

Lemma encode_varint_loop_base128 (v : Z) :
  0 <= v -> encode_varint_loop v [] = base128_varint v.
Proof.
  unfold base128_varint.
  induction v as [v Hv | v Hv IH] using varint_ind; intros Hnn.
  - rewrite encode_varint_loop_last by assumption.
    assert (Hlog : Z.log2 v / 7 = 0).
    { apply Z.div_small. split; [apply Z.log2_nonneg|].
      destruct (Z.eq_dec v 0) as [->|Hne]; [reflexivity|].
      apply Z.log2_lt_pow2; [lia|]. change (2 ^ 7) with 128. lia. }
    rewrite Hlog. simpl. rewrite land_127_small by lia.
    rewrite Z.mod_small by lia. reflexivity.
  - rewrite encode_varint_loop_more by assumption.
    assert (Hq : 0 <= Z.shiftr v 7) by (apply Z.shiftr_nonneg; lia).
    rewrite (IH Hq).
    assert (H7 : 7 <= Z.log2 v) by (apply Z.log2_le_pow2; lia).
    rewrite Z.log2_shiftr by lia.
    rewrite Z.max_r by lia.
    replace (Z.log2 v) with ((Z.log2 v - 7) + 1 * 7) at 2 by lia.
    rewrite Z.div_add by lia.
    assert (Hd : 0 <= (Z.log2 v - 7) / 7) by (apply Z.div_pos; lia).
    rewrite Z2Nat.inj_add by lia. rewrite Nat.add_comm. simpl base128_groups.
    rewrite Z.shiftr_div_pow2 by lia. change (2 ^ 7) with 128.
    f_equal.
    rewrite lor_128 by apply land_127_range.
    change 127 with (Z.ones 7). rewrite Z.land_ones by lia. reflexivity.
Qed.

Lemma base128_groups_length (n : nat) (v : Z) :
  List.length (base128_groups n v) = S n.
Proof. revert v. induction n as [|n IH]; intros v; simpl; [reflexivity | now rewrite IH]. Qed.

Lemma base128_groups_wire (n : nat) (v : Z) : varint_wire (base128_groups n v).
Proof.
  revert v. induction n as [|n IH]; intros v; simpl.
  - apply wire_last. apply Z.mod_pos_bound. lia.
  - apply wire_more; [|apply IH].
    pose proof (Z.mod_pos_bound v 128 ltac:(lia)). lia.
Qed.

Lemma varint_value_cons (b : Z) (bs : list Z) :
  varint_value (b :: bs) = b mod 128 + 128 * varint_value bs.
Proof. reflexivity. Qed.

Lemma encode_varint_loop_value (v : Z) :
  0 <= v -> varint_value (encode_varint_loop v []) = v.
Proof.
  induction v as [v Hv | v Hv IH] using varint_ind; intros Hnn.
  - rewrite encode_varint_loop_last by assumption.
    rewrite land_127_small by lia. rewrite varint_value_cons.
    rewrite Z.mod_small by lia. change (varint_value []) with 0. lia.
  - rewrite encode_varint_loop_more by assumption.
    assert (Hq : 0 <= Z.shiftr v 7) by (apply Z.shiftr_nonneg; lia).
    rewrite varint_value_cons.
    rewrite (IH Hq).
    rewrite lor_128 by apply land_127_range.
    change 127 with (Z.ones 7). rewrite Z.land_ones by lia. change (2 ^ 7) with 128.
    rewrite Z.shiftr_div_pow2 by lia. change (2 ^ 7) with 128.
    pose proof (Z.mod_pos_bound v 128 ltac:(lia)) as Hm.
    replace ((v mod 128 + 128) mod 128) with (v mod 128).
    + pose proof (Z.div_mod v 128 ltac:(lia)). lia.
    + replace (v mod 128 + 128) with (v mod 128 + 1 * 128) by lia.
      rewrite Z.mod_add by lia. rewrite Z.mod_mod by lia. reflexivity.
Qed.

(** C4. [encode_varint] is the standard base-128 varint encoder on every
    unsigned value of up to 32 bits: it returns the bytes of the reference
    description (continuation bytes holding 7 low bits each, then the final 7
    bits without continuation bit), at most five of them, and they denote the
    value; and 0, 127, 128, 300 encode as 00, 7f, 80 01, ac 02. *)
Theorem encode_varint_standard (v : Z) :
  0 <= v < 2 ^ 32 ->
  encode_varint v = Ok (base128_varint v)
  /\ varint_wire (base128_varint v)
  /\ varint_value (base128_varint v) = v
  /\ (List.length (base128_varint v) <= 5)%nat
  /\ encode_varint 0 = Ok [0]
  /\ encode_varint 127 = Ok [127]
  /\ encode_varint 128 = Ok [128; 1]
  /\ encode_varint 300 = Ok [172; 2].
Proof.
  intros [Hlo Hhi].
  repeat split; try reflexivity.
  - rewrite encode_varint_Ok, encode_varint_loop_base128 by lia. reflexivity.
  - apply base128_groups_wire.
  - rewrite <- encode_varint_loop_base128 by lia.
    apply encode_varint_loop_value. lia.
  - unfold base128_varint. rewrite base128_groups_length.
    assert (Hlog : Z.log2 v < 32).
    { destruct (Z.eq_dec v 0) as [->|Hne]; [reflexivity|].
      apply Z.log2_lt_pow2; lia. }
    pose proof (Z.log2_nonneg v) as Hnn.
    assert (Z.log2 v / 7 <= 4).
    { replace 4 with (31 / 7) by reflexivity. apply Z.div_le_mono; lia. }
    lia.
Qed.

Lemma encode_varint_standard_witness :
  0 <= 300 < 2 ^ 32 /\ encode_varint 300 = Ok (base128_varint 300).
Proof.
  split; [lia|].
  apply (encode_varint_standard 300). lia.
Defined.

(** C9. [decode_varint] is a left inverse of [encode_varint]: for every
    non-negative [v] the encoder returns a byte string, and decoding it from
    position 0 returns [v] and the length of that string. *)
Theorem decode_varint_encode_varint (v : Z) :
  0 <= v ->
  exists bs, encode_varint v = Ok bs /\ decode_varint bs 0 = Ok (v, len bs).
Proof.
  intros Hv. exists (encode_varint_loop v []). split; [apply encode_varint_Ok|].
  pose proof (decode_varint_encode_at v [] [] Hv) as H.
  rewrite app_nil_r in H. simpl app in H. rewrite len_nil in H.
  rewrite H. reflexivity.
Qed.

Lemma decode_varint_encode_varint_witness :
  0 <= 300 /\ exists bs, encode_varint 300 = Ok bs /\ decode_varint bs 0 = Ok (300, len bs).
Proof.
  split; [lia|].
  apply (decode_varint_encode_varint 300). lia.
Defined.

(** ** Slices and fields *)

Lemma slice_app (pre mid post : list Z) :
  slice (pre ++ mid ++ post) (len pre) (len pre + len mid) = mid.
Proof.
  unfold slice, slice_index. len_norm.
  pose proof (len_nonneg pre). pose proof (len_nonneg mid). pose proof (len_nonneg post).
  destruct (Z.ltb_spec (len pre) 0); [lia|].
  destruct (Z.ltb_spec (len pre + len mid) 0); [lia|].
  rewrite !Z.min_r by lia. rewrite !Z.max_r by lia.
  replace (len pre + len mid - len pre) with (len mid) by lia.
  unfold len. rewrite !Nat2Z.id.
  rewrite skipn_app, skipn_all, Nat.sub_diag. simpl.
  rewrite firstn_app, firstn_all, Nat.sub_diag. simpl. apply app_nil_r.
Qed.

(** Reading back a length-delimited field written as tag, varint length and
    payload, wherever it sits in a buffer. *)
Lemma read_field_written (pre : bytes) (tag : Z) (payload post : bytes) :
  Z.land tag 7 = 2 ->
  read_field (pre ++ [tag] ++ base128_varint (len payload) ++ payload ++ post) (len pre)
  = Ok (Z.shiftr tag 3, 2, Some payload,
        len pre + 1 + len (base128_varint (len payload)) + len payload).
Proof.
  intros Htag. unfold read_field.
  simpl app at 1. rewrite getitem_app. simpl bind. rewrite Htag. simpl Z.eqb. cbv iota.
  pose proof (len_nonneg payload) as Hp.
  rewrite <- encode_varint_loop_base128 by assumption.
  set (lv := encode_varint_loop (len payload) []).
  replace (pre ++ tag :: lv ++ payload ++ post)
    with ((pre ++ [tag]) ++ lv ++ (payload ++ post))
    by (rewrite <- app_assoc; reflexivity).
  replace (len pre + 1) with (len (pre ++ [tag])) by (len_norm; lia).
  unfold lv at 1. rewrite decode_varint_encode_at by assumption. fold lv.
  simpl bind. cbv zeta. unfold fst, snd.
  replace ((pre ++ [tag]) ++ lv ++ payload ++ post)
    with (((pre ++ [tag]) ++ lv) ++ payload ++ post)
    by (rewrite <- !app_assoc; reflexivity).
  replace (len (pre ++ [tag]) + len lv) with (len ((pre ++ [tag]) ++ lv)) by (len_norm; lia).
  rewrite slice_app. reflexivity.
Qed.

(** ** The signature map is the reference layout *)

Lemma build_signature_map_Ok (pub_key signature : bytes) :
  build_signature_map pub_key signature = Ok (signature_map_layout 26 pub_key signature).
Proof.
  unfold build_signature_map, signature_map_layout, sig_pair_layout.
  rewrite !encode_varint_Ok. simpl bind.
  rewrite !encode_varint_Ok. simpl bind.
  rewrite !encode_varint_loop_base128 by apply len_nonneg.
  rewrite <- !app_assoc. reflexivity.
Qed.

Lemma build_signature_map_protobuf_Ok (public_key_bytes signature_bytes : bytes)
    (key_type : string) :
  build_signature_map_protobuf public_key_bytes signature_bytes key_type
  = Ok (signature_map_layout (if String.eqb key_type "ed25519" then 26 else 50)
          public_key_bytes signature_bytes).
Proof.
  unfold build_signature_map_protobuf, signature_map_layout, sig_pair_layout.
  rewrite !encode_varint_Ok. simpl bind.
  destruct (String.eqb key_type "ed25519");
    rewrite !encode_varint_Ok; simpl bind;
    rewrite !encode_varint_loop_base128 by apply len_nonneg;
    rewrite <- !app_assoc; reflexivity.
Qed.

Lemma sig_pair_layout_len (sig_tag : Z) (pub sig : bytes) :
  len (sig_pair_layout sig_tag pub sig)
  = 1 + len (base128_varint (len pub)) + len pub
    + 1 + len (base128_varint (len sig)) + len sig.
Proof. unfold sig_pair_layout. len_norm. lia. Qed.

(** C6. With the discriminant [ecdsa_secp256k1], [build_signature_map_protobuf]
    writes tag 0x32 where the [ed25519] variant writes 0x1a; the public-key
    sub-field (tag 0x0a), the outer wrapper (tag 0x0a) and its length prefix
    are the same in both. *)
Theorem signature_map_secp256k1_tag (pub sig : bytes) :
  let n := 1 + len (base128_varint (len pub)) + len pub
           + 1 + len (base128_varint (len sig)) + len sig in
  build_signature_map_protobuf pub sig "ecdsa_secp256k1"
  = Ok ([10] ++ base128_varint n
        ++ [10] ++ base128_varint (len pub) ++ pub
        ++ [50] ++ base128_varint (len sig) ++ sig)
  /\ build_signature_map_protobuf pub sig "ed25519"
  = Ok ([10] ++ base128_varint n
        ++ [10] ++ base128_varint (len pub) ++ pub
        ++ [26] ++ base128_varint (len sig) ++ sig).
Proof.
  intros n. rewrite !build_signature_map_protobuf_Ok.
  unfold signature_map_layout. rewrite !sig_pair_layout_len. fold n.
  split; reflexivity.
Qed.

(** C7, as stated, fails: a negative value and a value beyond 64 bits are
    both encoded, no error is raised. *)
Lemma encode_varint_no_range_check :
  -1 < 0 /\ encode_varint (-1) = Ok [127]
  /\ 2 ^ 64 <= 2 ^ 70
  /\ encode_varint (2 ^ 70)
     = Ok [128; 128; 128; 128; 128; 128; 128; 128; 128; 128; 1].
Proof. repeat split; try reflexivity; lia. Qed.

(** C7, amended. [encode_varint] is total: it returns a byte string for every
    integer; a negative value yields the single byte [value & 0x7f]; and the
    signature-map builders, which only pass it [len(...)] values, never raise
    for any public key, signature and key type. *)
Theorem encode_varint_total :
  (forall v : Z, exists bs, encode_varint v = Ok bs /\ wf_bytes bs /\ bs <> [])
  /\ (forall p : positive, encode_varint (Z.neg p) = Ok [Z.land (Z.neg p) 127])
  /\ (forall pub sig : bytes, succeeds (build_signature_map pub sig) = true)
  /\ (forall (pub sig : bytes) (key_type : string),
        succeeds (build_signature_map_protobuf pub sig key_type) = true).
Proof.
  repeat split.
  - intros v. exists (encode_varint_loop v []).
    split; [apply encode_varint_Ok|]. split; [apply encode_varint_loop_bytes|].
    rewrite encode_varint_loop_eq.
    destruct (Z_lt_dec 127 v).
    + rewrite encode_varint_loop_acc. discriminate.
    + discriminate.
  - intros p. rewrite encode_varint_Ok, encode_varint_loop_last by lia. reflexivity.
  - intros pub sig. rewrite build_signature_map_Ok. reflexivity.
  - intros pub sig kt. rewrite build_signature_map_protobuf_Ok. reflexivity.
Qed.

(** C3, as stated, fails: for a 32-byte key and a 64-byte signature the
    second byte of the map is 0x64 (100, the length of the inner buffer), not
    0x66; 102 is the length of the whole map. *)
Lemma signature_map_second_byte_is_100 :
  len (repeat 1 32) = 32 /\ len (repeat 2 64) = 64
  /\ exists bs, build_signature_map (repeat 1 32) (repeat 2 64) = Ok bs
              /\ nth 1 bs 0 = 100 /\ nth 1 bs 0 <> 102 /\ len bs = 102.
Proof.
  split; [reflexivity|]. split; [reflexivity|].
  eexists. split; [reflexivity|]. repeat split. discriminate.
Qed.

(** C3, amended. For a 32-byte public key and a 64-byte signature the map
    starts with 0x0a, then the single-byte varint 0x64 (100, the length of the
    inner buffer; the whole map is 102 bytes long), and it round-trips:
    reading the outer length-delimited field gives the inner buffer, and
    reading its two length-delimited sub-fields gives field 1 = the public key
    and field 3 = the signature. *)
Theorem signature_map_ed25519_roundtrip (pub sig : bytes) :
  len pub = 32 -> len sig = 64 ->
  exists inner,
    build_signature_map pub sig = Ok (10 :: 100 :: inner)
    /\ build_signature_map_protobuf pub sig "ed25519" = Ok (10 :: 100 :: inner)
    /\ len inner = 100
    /\ len (10 :: 100 :: inner) = 102
    /\ read_field (10 :: 100 :: inner) 0 = Ok (1, 2, Some inner, 102)
    /\ read_field inner 0 = Ok (1, 2, Some pub, 34)
    /\ read_field inner 34 = Ok (3, 2, Some sig, 100).
Proof.
  intros Hpub Hsig.
  assert (Hinner : sig_pair_layout 26 pub sig = [10; 32] ++ pub ++ [26; 64] ++ sig).
  { unfold sig_pair_layout. rewrite Hpub, Hsig. reflexivity. }
  assert (Hlen : len ([10; 32] ++ pub ++ [26; 64] ++ sig) = 100).
  { len_norm. lia. }
  exists ([10; 32] ++ pub ++ [26; 64] ++ sig).
  assert (Hmap : signature_map_layout 26 pub sig
                 = 10 :: 100 :: [10; 32] ++ pub ++ [26; 64] ++ sig).
  { unfold signature_map_layout. rewrite Hinner, Hlen. reflexivity. }
  split; [rewrite build_signature_map_Ok, Hmap; reflexivity|].
  split; [rewrite build_signature_map_protobuf_Ok; simpl String.eqb; cbv iota;
          rewrite Hmap; reflexivity|].
  split; [exact Hlen|].
  split; [rewrite !len_cons, Hlen; reflexivity|].
  split; [|split].
  - pose proof (read_field_written [] 10 ([10; 32] ++ pub ++ [26; 64] ++ sig) []
                  eq_refl) as H.
    rewrite Hlen, app_nil_r in H. exact H.
  - pose proof (read_field_written [] 10 pub ([26; 64] ++ sig) eq_refl) as H.
    rewrite Hpub in H. exact H.
  - pose proof (read_field_written ([10; 32] ++ pub) 26 sig [] eq_refl) as H.
    rewrite Hsig, app_nil_r in H.
    replace (len ([10; 32] ++ pub)) with 34 in H by (len_norm; lia).
    rewrite <- app_assoc in H. exact H.
Qed.

Lemma signature_map_ed25519_roundtrip_witness :
  exists inner,
    build_signature_map (repeat 1 32) (repeat 2 64) = Ok (10 :: 100 :: inner)
    /\ read_field inner 34 = Ok (3, 2, Some (repeat 2 64), 100).
Proof.
  destruct (signature_map_ed25519_roundtrip (repeat 1 32) (repeat 2 64)
              eq_refl eq_refl) as [inner H].
  exists inner. split; apply H.
Defined.

(** ** [str(n)] is the decimal numeral of [n] *)

Lemma decimal_digits_eq (n : Z) (acc : list Z) :
  decimal_digits n acc =
  if Z_lt_dec n 10 then (48 + n) :: acc
  else decimal_digits (n / 10) ((48 + n mod 10) :: acc).
Proof.
  rewrite decimal_digits_equation_1.
  destruct (Z_lt_dec n 10); reflexivity.
Qed.

(** Induction along the divisions by ten. *)
Lemma decimal_ind (P : Z -> Prop) :
  (forall n, n < 10 -> P n) ->
  (forall n, 10 <= n -> P (n / 10) -> P n) ->
  forall n, P n.
Proof.
  intros Hone Hmore n.
  destruct (Z_lt_ge_dec n 10) as [Hlt|Hge]; [now apply Hone|].
  assert (Hn : 0 <= n) by lia. clear Hge. revert n Hn.
  apply (Z_lt_induction P). intros n IH.
  destruct (Z_lt_ge_dec n 10) as [Hlt|Hge]; [now apply Hone|].
  apply Hmore; [lia|]. apply IH.
  split; [apply Z.div_pos; lia | apply Z.div_lt; lia].
Qed.

Lemma decimal_digits_acc (n : Z) :
  forall acc, decimal_digits n acc = decimal_digits n [] ++ acc.
Proof.
  induction n as [n Hn | n Hn IH] using decimal_ind; intros acc.
  - rewrite (decimal_digits_eq n acc), (decimal_digits_eq n []).
    destruct (Z_lt_dec n 10); [reflexivity | lia].
  - rewrite (decimal_digits_eq n acc), (decimal_digits_eq n []).
    destruct (Z_lt_dec n 10); [lia|].
    rewrite (IH (_ :: acc)), (IH [_]). rewrite <- app_assoc. reflexivity.
Qed.

Lemma decimal_digits_one (n : Z) : n < 10 -> decimal_digits n [] = [48 + n].
Proof.
  intros H. rewrite decimal_digits_eq. destruct (Z_lt_dec n 10); [reflexivity | lia].
Qed.

Lemma decimal_digits_more (n : Z) :
  10 <= n -> decimal_digits n [] = decimal_digits (n / 10) [] ++ [48 + n mod 10].
Proof.
  intros H. rewrite decimal_digits_eq. destruct (Z_lt_dec n 10); [lia|].
  apply decimal_digits_acc.
Qed.

Lemma decimal_digits_range (n : Z) :
  0 <= n -> Forall (fun d => 48 <= d <= 57) (decimal_digits n []).
Proof.
  induction n as [n Hn | n Hn IH] using decimal_ind; intros Hnn.
  - rewrite decimal_digits_one by assumption. constructor; [lia | constructor].
  - rewrite decimal_digits_more by assumption.
    apply Forall_app. split.
    + apply IH. apply Z.div_pos; lia.
    + constructor; [|constructor].
      pose proof (Z.mod_pos_bound n 10 ltac:(lia)). lia.
Qed.

Lemma decimal_value_snoc (ds : list Z) (d : Z) :
  decimal_value (ds ++ [d]) = 10 * decimal_value ds + (d - 48).
Proof. unfold decimal_value. rewrite fold_left_app. reflexivity. Qed.

Lemma decimal_digits_value (n : Z) :
  0 <= n -> decimal_value (decimal_digits n []) = n.
Proof.
  induction n as [n Hn | n Hn IH] using decimal_ind; intros Hnn.
  - rewrite decimal_digits_one by assumption. unfold decimal_value. cbn [fold_left]. lia.
  - rewrite decimal_digits_more by assumption.
    rewrite decimal_value_snoc, IH by (apply Z.div_pos; lia).
    pose proof (Z.div_mod n 10 ltac:(lia)). lia.
Qed.

Lemma decimal_digits_head (n : Z) :
  0 < n -> exists d ds, decimal_digits n [] = d :: ds /\ 49 <= d <= 57.
Proof.
  induction n as [n Hn | n Hn IH] using decimal_ind; intros Hpos.
  - rewrite decimal_digits_one by assumption. exists (48 + n), []. split; [reflexivity | lia].
  - rewrite decimal_digits_more by assumption.
    destruct IH as (d & ds & E & Hd); [apply Z.div_str_pos; lia|].
    rewrite E. exists d, (ds ++ [48 + n mod 10]). split; [reflexivity | exact Hd].
Qed.

Lemma py_str_numeral (n : Z) :
  0 <= n -> decimal_numeral (py_str n) /\ decimal_value (py_str n) = n.
Proof.
  intros Hn. unfold py_str. destruct (Z.ltb_spec n 0); [lia|].
  split; [|apply decimal_digits_value; assumption].
  split; [apply decimal_digits_range; assumption|].
  destruct (Z.eq_dec n 0) as [->|Hne].
  - split; [discriminate | reflexivity].
  - destruct (decimal_digits_head n ltac:(lia)) as (d & ds & E & Hd).
    rewrite E. split; [discriminate|]. simpl. lia.
Qed.

Lemma encode_ascii_Ok (s : str) :
  Forall (fun c => 0 <= c < 128) s -> encode_ascii s = Ok s.
Proof.
  intros H. unfold encode_ascii.
  replace (forallb _ s) with true; [reflexivity|].
  symmetry. apply forallb_forall. intros x Hx.
  rewrite Forall_forall in H. specialize (H x Hx).
  apply andb_true_intro. split; [apply Z.leb_le | apply Z.ltb_lt]; lia.
Qed.

(** [build_hip820] never raises and has the shape prefix, length, newline,
    message. *)
Lemma build_hip820_Ok (m : bytes) :
  build_hip820 m = Ok (hip820_prefix ++ py_str (len m) ++ [10] ++ m).
Proof.
  unfold build_hip820.
  destruct (py_str_numeral (len m) (len_nonneg m)) as [[Hr _] _].
  rewrite encode_ascii_Ok; [reflexivity|].
  eapply Forall_impl; [|exact Hr]. simpl. intros; lia.
Qed.

(** C2. For every byte string [m], [build_hip820 m] is the 24-byte prefix
    [\x19Hedera Signed Message:\n], then the canonical ASCII decimal numeral of
    [len m], then one newline byte, then [m] itself; for the empty message
    that is the prefix followed by [0] and a newline. *)
Theorem build_hip820_format (m : bytes) :
  build_hip820 m = Ok (hip820_prefix ++ py_str (len m) ++ [10] ++ m)
  /\ hip820_prefix
     = [25; 72; 101; 100; 101; 114; 97; 32; 83; 105; 103; 110; 101; 100; 32;
        77; 101; 115; 115; 97; 103; 101; 58; 10]
  /\ len hip820_prefix = 24
  /\ decimal_numeral (py_str (len m))
  /\ decimal_value (py_str (len m)) = len m
  /\ build_hip820 [] = Ok (hip820_prefix ++ [48; 10]).
Proof.
  split; [apply build_hip820_Ok|].
  split; [reflexivity|]. split; [reflexivity|].
  destruct (py_str_numeral (len m) (len_nonneg m)) as [Hnum Hval].
  split; [exact Hnum|]. split; [exact Hval|]. reflexivity.
Qed.

(** Two buffers that agree and are each cut at their first newline have the
    same head and the same tail. *)
Lemma split_at_newline (d1 d2 m1 m2 : list Z) :
  Forall (fun d => 48 <= d <= 57) d1 ->
  Forall (fun d => 48 <= d <= 57) d2 ->
  d1 ++ 10 :: m1 = d2 ++ 10 :: m2 -> d1 = d2 /\ m1 = m2.
Proof.
  intros H1. revert d2. induction H1 as [|x d1 Hx H1 IH]; intros d2 H2 E.
  - destruct H2 as [|y d2 Hy H2]; simpl in E.
    + injection E as E. auto.
    + injection E as E _. lia.
  - destruct H2 as [|y d2 Hy H2]; simpl in E.
    + injection E as E _. lia.
    + injection E as Exy E. subst y.
      destruct (IH d2 H2 E) as [-> ->]. auto.
Qed.

(** C10. [build_hip820] is injective: distinct messages are wrapped into
    distinct byte strings. *)
Theorem build_hip820_injective (m1 m2 : bytes) :
  m1 <> m2 -> build_hip820 m1 <> build_hip820 m2.
Proof.
  intros Hne E. apply Hne.
  rewrite !build_hip820_Ok in E. injection E as E.
  destruct (py_str_numeral (len m1) (len_nonneg m1)) as [[Hr1 _] _].
  destruct (py_str_numeral (len m2) (len_nonneg m2)) as [[Hr2 _] _].
  destruct (split_at_newline _ _ _ _ Hr1 Hr2 E) as [_ Hm]. exact Hm.
Qed.

Lemma build_hip820_injective_witness :
  build_hip820 [104; 105] <> build_hip820 [104; 111].
Proof.
  apply (build_hip820_injective [104; 105] [104; 111]). discriminate.
Defined.

(** ** Base64 text *)

(** Lists taken three elements at a time, as [b64encode] does. *)
Lemma list_ind3 {A : Type} (P : list A -> Prop) :
  P [] ->
  (forall a, P [a]) ->
  (forall a b, P [a; b]) ->
  (forall a b c rest, P rest -> P (a :: b :: c :: rest)) ->
  forall l, P l.
Proof.
  intros H0 H1 H2 H3 l.
  assert (Hall : P l /\ (forall a, P (a :: l)) /\ (forall a b, P (a :: b :: l))).
  { induction l as [|x l (IHl & IH1 & IH2)].
    - repeat split; auto.
    - repeat split; auto. }
  apply Hall.
Qed.

Lemma land_63_range (x : Z) : 0 <= Z.land x 63 < 64.
Proof.
  change 63 with (Z.ones 6). rewrite Z.land_ones by lia.
  change (2 ^ 6) with 64. apply Z.mod_pos_bound. lia.
Qed.

Lemma b64_char_alphabet (i : Z) : 0 <= i < 64 -> b64_alphabet (b64_char i) = true.
Proof.
  intros Hi. unfold b64_char, b64_alphabet.
  destruct (Z.ltb_spec i 26); [|destruct (Z.ltb_spec i 52);
    [|destruct (Z.ltb_spec i 62); [|destruct (Z.eqb_spec i 62)]]];
  repeat match goal with
         | |- context [?a <=? ?b] => destruct (Z.leb_spec a b); try lia
         | |- context [?a =? ?b] => destruct (Z.eqb_spec a b); try lia
         end; reflexivity.
Qed.

Lemma b64_sextet_alphabet (x : Z) : b64_alphabet (b64_char (Z.land x 63)) = true.
Proof. apply b64_char_alphabet, land_63_range. Qed.

Lemma b64_alphabet_ascii (c : Z) : b64_alphabet c = true -> 0 <= c < 128.
Proof.
  unfold b64_alphabet. intros H.
  repeat match type of H with
         | (_ || _) = true => apply orb_true_iff in H; destruct H as [H|H]
         | (_ && _) = true => apply andb_true_iff in H; destruct H as [? H]
         end;
  repeat match goal with
         | H : (_ <=? _) = true |- _ => apply Z.leb_le in H
         | H : (_ =? _) = true |- _ => apply Z.eqb_eq in H
         end; lia.
Qed.

Lemma b64_text_group (c1 c2 c3 c4 : Z) (t : list Z) :
  b64_alphabet c1 = true -> b64_alphabet c2 = true ->
  b64_alphabet c3 = true -> b64_alphabet c4 = true ->
  b64_text t = true -> b64_text (c1 :: c2 :: c3 :: c4 :: t) = true.
Proof.
  intros H1 H2 H3 H4 Ht. destruct t as [|x t]; simpl.
  - rewrite H1, H2, H3, H4. reflexivity.
  - rewrite H1, H2, H3, H4. exact Ht.
Qed.

(** The encoder writes padded text over the standard alphabet. *)
Lemma b64encode_text (data : bytes) : b64_text (b64encode data) = true.
Proof.
  induction data as [|a|a b|a b c rest IH] using list_ind3.
  - reflexivity.
  - cbn [b64encode b64_text]. rewrite !b64_sextet_alphabet. reflexivity.
  - cbn [b64encode b64_text]. rewrite !b64_sextet_alphabet. reflexivity.
  - cbn [b64encode]. apply b64_text_group; try apply b64_sextet_alphabet. exact IH.
Qed.

Lemma b64encode_ascii (data : bytes) :
  Forall (fun c => 0 <= c < 128) (b64encode data).
Proof.
  induction data as [|a|a b|a b c rest IH] using list_ind3; cbn [b64encode].
  - constructor.
  - repeat (constructor; [first [lia | apply b64_alphabet_ascii, b64_sextet_alphabet]|]).
    constructor.
  - repeat (constructor; [first [lia | apply b64_alphabet_ascii, b64_sextet_alphabet]|]).
    constructor.
  - repeat (constructor; [apply b64_alphabet_ascii, b64_sextet_alphabet|]). exact IH.
Qed.

(** Four characters for every three bytes, the last group padded. *)
Lemma b64encode_len (data : bytes) : len (b64encode data) = 4 * ((len data + 2) / 3).
Proof.
  induction data as [|a|a b|a b c rest IH] using list_ind3; try reflexivity.
  cbn [b64encode]. len_norm. rewrite IH.
  replace (1 + (1 + (1 + len rest)) + 2) with ((len rest + 2) + 1 * 3) by lia.
  rewrite Z.div_add by lia. lia.
Qed.

(** Decoding ASCII bytes as UTF-8 gives the same code points. *)
Lemma utf8_decode_ascii (b : bytes) :
  Forall (fun c => 0 <= c < 128) b -> utf8_decode b = Ok b.
Proof.
  induction 1 as [|c b Hc Hb IH]; [reflexivity|].
  cbn [utf8_decode]. destruct (Z.leb_spec 0 c); [|lia]. destruct (Z.ltb_spec c 128); [|lia].
  cbn [andb]. rewrite IH. reflexivity.
Qed.

(** ** Base64 text read back *)

Lemma lor_shiftl_add (x b k : Z) :
  0 <= k -> 0 <= b < 2 ^ k -> Z.lor (Z.shiftl x k) b = x * 2 ^ k + b.
Proof.
  intros Hk Hb. rewrite <- Z.shiftl_mul_pow2 by assumption.
  pose proof (Z.add_lor_land (Z.shiftl x k) b) as E.
  assert (Hland : Z.land (Z.shiftl x k) b = 0).
  { apply Z.bits_inj'. intros n Hn. rewrite Z.land_spec, Z.bits_0.
    destruct (Z_lt_ge_dec n k) as [Hlt|Hge].
    - rewrite Z.shiftl_spec_low by assumption. reflexivity.
    - replace (Z.testbit b n) with false; [apply andb_false_r|].
      symmetry. destruct (Z.eq_dec b 0) as [->|Hne]; [apply Z.bits_0|].
      apply Z.bits_above_log2; [lia|].
      apply Z.lt_le_trans with k; [|lia]. apply Z.log2_lt_pow2; lia. }
  rewrite Hland in E. lia.
Qed.

Lemma b64_index_char (i : Z) : 0 <= i < 64 -> b64_index (b64_char i) = Some i.
Proof.
  intros Hi. unfold b64_char, b64_index.
  destruct (Z.ltb_spec i 26); [|destruct (Z.ltb_spec i 52);
    [|destruct (Z.ltb_spec i 62); [|destruct (Z.eqb_spec i 62)]]];
  repeat match goal with
         | |- context [?a <=? ?b] => destruct (Z.leb_spec a b); try lia
         | |- context [?a =? ?b] => destruct (Z.eqb_spec a b); try lia
         end; cbn [andb]; f_equal; lia.
Qed.

Lemma b64_char_not_pad (i : Z) : 0 <= i < 64 -> (b64_char i =? 61) = false.
Proof.
  intros Hi. apply Z.eqb_neq. unfold b64_char.
  destruct (Z.ltb_spec i 26); [lia|]. destruct (Z.ltb_spec i 52); [lia|].
  destruct (Z.ltb_spec i 62); [lia|]. destruct (Z.eqb_spec i 62); lia.
Qed.

Lemma sextet_arith (n k : Z) :
  0 <= k -> Z.land (Z.shiftr n k) 63 = (n / 2 ^ k) mod 64.
Proof.
  intros Hk. rewrite Z.shiftr_div_pow2 by assumption.
  change 63 with (Z.ones 6). rewrite Z.land_ones by lia. reflexivity.
Qed.

(** Reading back what the encoder wrote. *)
Lemma b64_unpack_encode (data : bytes) :
  wf_bytes data -> b64_unpack (b64encode data) = Some data.
Proof.
  induction data as [|a|a b|a b c rest IH] using list_ind3; intros Hwf.
  - reflexivity.
  - inversion Hwf as [|? ? Ha _]; subst.
    cbn [b64encode b64_unpack].
    rewrite !sextet_arith by lia.
    rewrite !b64_index_char by (apply Z.mod_pos_bound; lia).
    change (61 =? 61) with true. cbv iota.
    rewrite Z.shiftl_mul_pow2 by lia.
    change (2 ^ 16) with 65536. change (2 ^ 18) with 262144. change (2 ^ 12) with 4096.
    match goal with
    | |- Some [?x] = _ => replace x with a by (Z.div_mod_to_equations; lia)
    end. reflexivity.
  - inversion Hwf as [|? ? Ha Hwf1]; subst. inversion Hwf1 as [|? ? Hb _]; subst.
    cbn [b64encode b64_unpack].
    rewrite !sextet_arith by lia.
    rewrite !b64_index_char by (apply Z.mod_pos_bound; lia).
    rewrite b64_char_not_pad by (apply Z.mod_pos_bound; lia).
    change (61 =? 61) with true. cbv iota.
    rewrite (Z.shiftl_mul_pow2 b) by lia.
    rewrite lor_shiftl_add by (change (2 ^ 16) with 65536; change (2 ^ 8) with 256; lia).
    change (2 ^ 16) with 65536. change (2 ^ 18) with 262144. change (2 ^ 12) with 4096.
    change (2 ^ 8) with 256. change (2 ^ 6) with 64.
    match goal with
    | |- Some [?x; ?y] = _ =>
        replace x with a by (Z.div_mod_to_equations; lia);
        replace y with b by (Z.div_mod_to_equations; lia)
    end. reflexivity.
  - inversion Hwf as [|? ? Ha Hwf1]; subst. inversion Hwf1 as [|? ? Hb Hwf2]; subst.
    inversion Hwf2 as [|? ? Hc Hwf3]; subst.
    cbn [b64encode b64_unpack].
    set (n := Z.lor (Z.lor (Z.shiftl a 16) (Z.shiftl b 8)) c).
    assert (Hn : n = a * 65536 + b * 256 + c).
    { unfold n. rewrite (Z.shiftl_mul_pow2 b) by lia.
      rewrite lor_shiftl_add by (change (2 ^ 16) with 65536; change (2 ^ 8) with 256; lia).
      change (2 ^ 16) with 65536. change (2 ^ 8) with 256.
      replace (a * 65536 + b * 256) with (Z.shiftl (a * 256 + b) 8)
        by (rewrite Z.shiftl_mul_pow2 by lia; change (2 ^ 8) with 256; lia).
      rewrite lor_shiftl_add by (change (2 ^ 8) with 256; lia).
      rewrite Z.shiftl_mul_pow2 by lia. reflexivity. }
    replace (Z.land n 63) with (Z.land (Z.shiftr n 0) 63) by (rewrite Z.shiftr_0_r; reflexivity).
    rewrite !sextet_arith by lia.
    rewrite !b64_index_char by (apply Z.mod_pos_bound; lia).
    rewrite !b64_char_not_pad by (apply Z.mod_pos_bound; lia).
    rewrite (IH Hwf3).
    change (2 ^ 18) with 262144. change (2 ^ 12) with 4096.
    change (2 ^ 6) with 64. change (2 ^ 0) with 1.
    rewrite Hn. clear n Hn IH Hwf Hwf1 Hwf2 Hwf3.
    match goal with
    | |- Some (?x :: ?y :: ?z :: _) = _ =>
        replace x with a by (Z.div_mod_to_equations; lia);
        replace y with b by (Z.div_mod_to_equations; lia);
        replace z with c by (Z.div_mod_to_equations; lia)
    end. reflexivity.
Qed.

Lemma base128_groups_bytes (n : nat) (v : Z) : wf_bytes (base128_groups n v).
Proof.
  revert v. induction n as [|n IH]; intros v; cbn [base128_groups].
  - constructor; [|constructor]. pose proof (Z.mod_pos_bound v 128 ltac:(lia)). lia.
  - constructor; [|apply IH]. pose proof (Z.mod_pos_bound v 128 ltac:(lia)). lia.
Qed.

Lemma signature_map_layout_bytes (sig_tag : Z) (pub sig : bytes) :
  0 <= sig_tag < 256 -> wf_bytes pub -> wf_bytes sig ->
  wf_bytes (signature_map_layout sig_tag pub sig).
Proof.
  intros Ht Hp Hs. unfold signature_map_layout, sig_pair_layout, wf_bytes.
  repeat (apply Forall_app; split);
    try apply base128_groups_bytes; try assumption;
    (constructor; [lia | constructor]).
Qed.

(** ** The verification request *)

Lemma signature_map_layout_reads (sig_tag : Z) (pub sig : bytes) :
  Z.land sig_tag 7 = 2 ->
  let sm := signature_map_layout sig_tag pub sig in
  let inner := sig_pair_layout sig_tag pub sig in
  let p1 := 1 + len (base128_varint (len pub)) + len pub in
  read_field sm 0 = Ok (1, 2, Some inner, len sm)
  /\ read_field inner 0 = Ok (1, 2, Some pub, p1)
  /\ read_field inner p1 = Ok (Z.shiftr sig_tag 3, 2, Some sig, len inner).
Proof.
  intros Htag sm inner p1. split; [|split].
  - pose proof (read_field_written [] 10 inner [] eq_refl) as H.
    rewrite app_nil_r, len_nil in H. unfold sm, signature_map_layout. fold inner.
    cbn [app] in *. rewrite H; repeat f_equal; len_norm; lia.
  - pose proof (read_field_written [] 10 pub
                  ([sig_tag] ++ base128_varint (len sig) ++ sig) eq_refl) as H.
    rewrite len_nil in H.
    unfold inner, sig_pair_layout. cbn [app] in *. rewrite H; repeat f_equal; unfold p1; len_norm; lia.
  - pose proof (read_field_written ([10] ++ base128_varint (len pub) ++ pub)
                  sig_tag sig [] Htag) as H.
    rewrite app_nil_r in H.
    replace (len ([10] ++ base128_varint (len pub) ++ pub)) with p1 in H
      by (unfold p1; len_norm; lia).
    unfold inner, sig_pair_layout.
    rewrite <- !app_assoc in H. rewrite H; repeat f_equal; unfold p1; len_norm; lia.
Qed.

Lemma hip820_longer (m : bytes) : hip820_prefix ++ py_str (len m) ++ [10] ++ m <> m.
Proof.
  intros E. apply (f_equal len) in E. revert E. len_norm.
  change (len hip820_prefix) with 24.
  pose proof (len_nonneg (py_str (len m))). lia.
Qed.

Lemma authenticate_verify_body_Ok {K : Type} `{KeyObject K}
    (private_key : K) (account challenge message : str) (mb : bytes) :
  utf8_encode message = Ok mb ->
  authenticate_verify_body private_key account challenge message
  = Ok {| challenge_id := challenge;
          account_id := account;
          message_signed_plain_text := message;
          signature_map_base64 :=
            b64encode (signature_map_layout 26 (public_bytes_raw private_key)
                         (sign private_key
                            (hip820_prefix ++ py_str (len mb) ++ [10] ++ mb)));
          sig_type := "ed25519" |}.
Proof.
  intros Hm. unfold authenticate_verify_body.
  rewrite Hm. cbn [bind]. rewrite build_hip820_Ok. cbn [bind].
  rewrite build_signature_map_Ok. cbn [bind].
  rewrite utf8_decode_ascii by apply b64encode_ascii. reflexivity.
Qed.

Lemma new_auth_verify_payload_Ok {K : Type} `{KeyObject K}
    (key_type : string) (private_key : K) (account challenge message : str)
    (mb : bytes) :
  utf8_encode message = Ok mb ->
  new_auth_verify_payload key_type private_key account challenge message
  = Ok {| challenge_id := challenge;
          account_id := account;
          message_signed_plain_text := message;
          signature_map_base64 :=
            b64encode
              (signature_map_layout
                 (if String.eqb key_type "ed25519" then 26 else 50)
                 (get_public_key_bytes private_key key_type)
                 (sign_message private_key
                    (hip820_prefix ++ py_str (len mb) ++ [10] ++ mb) key_type));
          sig_type := key_type |}.
Proof.
  intros Hm. unfold new_auth_verify_payload.
  rewrite Hm. cbn [bind]. rewrite build_hip820_Ok. cbn [bind].
  rewrite build_signature_map_protobuf_Ok. cbn [bind].
  rewrite utf8_decode_ascii by apply b64encode_ascii. reflexivity.
Qed.

(** C1. For every private key and challenge message, the credential that
    [authenticate] puts into the request (order_lifecycle_3.py, and new_auth.py
    with the Ed25519 key type) is the spec's composition
    base64(buildSignatureMap(publicKeyBytesOf(key), sign(key,
    wrapMessage(utf8Bytes(message))))), with [wrapMessage] and
    [buildSignatureMap] taken from the spec's description of their bytes.
    Whenever the message has UTF-8 bytes the credential is returned: the bytes
    signed are the prefix, the canonical decimal numeral of the byte length, a
    newline and the message bytes; the map is the two-step layout; and the
    text is padded standard base64, four characters for every three bytes of
    the map, that reads back to the map. *)
Theorem auth_credential_contract {K : Type} `{KeyObject K}
    (private_key : K) (account challenge message : str) :
  (body <- authenticate_verify_body private_key account challenge message ;;
   Ok (signature_map_base64 body))
  = spec_buildAuthCredential private_key message
  /\ (body <- new_auth_verify_payload "ed25519" private_key account challenge message ;;
      Ok (signature_map_base64 body))
     = spec_buildAuthCredential private_key message
  /\ (forall mb : bytes,
        utf8_encode message = Ok mb ->
        exists wrapped map,
          wrapped = hip820_prefix ++ py_str (len mb) ++ [10] ++ mb
          /\ decimal_numeral (py_str (len mb))
          /\ decimal_value (py_str (len mb)) = len mb
          /\ build_hip820 mb = Ok wrapped
          /\ map = [10] ++ base128_varint
                             (len (sig_pair_layout 26 (public_bytes_raw private_key)
                                     (sign private_key wrapped)))
                   ++ ([10] ++ base128_varint (len (public_bytes_raw private_key))
                       ++ public_bytes_raw private_key
                       ++ [26] ++ base128_varint (len (sign private_key wrapped))
                       ++ sign private_key wrapped)
          /\ build_signature_map (public_bytes_raw private_key)
               (sign private_key wrapped) = Ok map
          /\ (body <- authenticate_verify_body private_key account challenge message ;;
              Ok (signature_map_base64 body)) = Ok (b64encode map)
          /\ spec_buildAuthCredential private_key message = Ok (b64encode map)
          /\ b64_text (b64encode map) = true
          /\ len (b64encode map) = 4 * ((len map + 2) / 3)
          /\ (wf_bytes map -> b64_unpack (b64encode map) = Some map)).
Proof.
  assert (Hspec : forall mb, utf8_encode message = Ok mb ->
            spec_buildAuthCredential private_key message
            = Ok (b64encode (signature_map_layout 26 (public_bytes_raw private_key)
                    (sign private_key
                       (hip820_prefix ++ py_str (len mb) ++ [10] ++ mb))))).
  { intros mb Hm. unfold spec_buildAuthCredential, spec_buildSignatureMap,
      spec_wrapMessage. rewrite Hm. reflexivity. }
  split; [|split].
  - destruct (utf8_encode message) as [mb|e] eqn:Hm.
    + rewrite (authenticate_verify_body_Ok _ _ _ _ mb Hm), (Hspec mb eq_refl).
      reflexivity.
    + unfold authenticate_verify_body, spec_buildAuthCredential.
      rewrite Hm. reflexivity.
  - destruct (utf8_encode message) as [mb|e] eqn:Hm.
    + rewrite (new_auth_verify_payload_Ok _ _ _ _ _ mb Hm), (Hspec mb eq_refl).
      reflexivity.
    + unfold new_auth_verify_payload, spec_buildAuthCredential.
      rewrite Hm. reflexivity.
  - intros mb Hm.
    exists (hip820_prefix ++ py_str (len mb) ++ [10] ++ mb).
    eexists. split; [reflexivity|].
    destruct (py_str_numeral (len mb) (len_nonneg mb)) as [Hnum Hval].
    split; [exact Hnum|]. split; [exact Hval|].
    split; [apply build_hip820_Ok|].
    split; [reflexivity|].
    split; [apply build_signature_map_Ok|].
    split; [rewrite (authenticate_verify_body_Ok _ _ _ _ mb Hm); reflexivity|].
    split; [apply (Hspec mb Hm)|].
    split; [apply b64encode_text|]. split; [apply b64encode_len|].
    apply b64_unpack_encode.
Qed.

Lemma auth_credential_contract_witness :
  exists wrapped map,
    wrapped = hip820_prefix ++ [50; 10; 104; 105]
    /\ build_hip820 [104; 105] = Ok wrapped
    /\ build_signature_map (@public_bytes_raw _ demo_key [7; 7])
         (@sign _ demo_key [7; 7] wrapped) = Ok map
    /\ @spec_buildAuthCredential _ demo_key [7; 7] [104; 105] = Ok (b64encode map)
    /\ b64_text (b64encode map) = true
    /\ len (b64encode map) = 4 * ((len map + 2) / 3).
Proof.
  destruct (proj2 (proj2 (@auth_credential_contract _ demo_key [7; 7] [] [] [104; 105]))
              [104; 105] eq_refl)
    as (wrapped & map & Hw & _ & _ & Hb & _ & Hs & _ & Hc & Ht & Hl & _).
  exists wrapped, map.
  split; [exact Hw|]. split; [exact Hb|]. split; [exact Hs|].
  split; [exact Hc|]. split; [exact Ht | exact Hl].
Defined.

(** C5. For every challenge message, the request body built by [authenticate]
    carries the message itself, unwrapped, in [message_signed_plain_text],
    while the signature found in field 3 of the signature pair inside
    [signature_map_base64] is the signature of the HIP-820 wrapping of the
    UTF-8 bytes of that same field, and so verifies against the wrapped
    bytes under the key in field 1. *)
Theorem verify_body_asymmetry {K : Type} `{KeyObject K}
    (verify : bytes -> bytes -> bytes -> bool)
    (private_key : K) (account challenge message : str) (mb : bytes) :
  (forall k m, verify (public_bytes_raw k) m (sign k m) = true) ->
  wf_bytes (public_bytes_raw private_key) ->
  (forall m, wf_bytes (sign private_key m)) ->
  utf8_encode message = Ok mb ->
  exists body wrapped map inner signature p1,
    authenticate_verify_body private_key account challenge message = Ok body
    /\ message_signed_plain_text body = message
    /\ utf8_encode (message_signed_plain_text body) = Ok mb
    /\ wrapped = hip820_prefix ++ py_str (len mb) ++ [10] ++ mb
    /\ decimal_numeral (py_str (len mb))
    /\ decimal_value (py_str (len mb)) = len mb
    /\ build_hip820 mb = Ok wrapped
    /\ wrapped <> mb
    /\ signature_map_base64 body = b64encode map
    /\ b64_unpack (signature_map_base64 body) = Some map
    /\ read_field map 0 = Ok (1, 2, Some inner, len map)
    /\ read_field inner 0 = Ok (1, 2, Some (public_bytes_raw private_key), p1)
    /\ read_field inner p1 = Ok (3, 2, Some signature, len inner)
    /\ signature = sign private_key wrapped
    /\ verify (public_bytes_raw private_key) wrapped signature = true.
Proof.
  intros Hverify Hpub Hsig Hm.
  set (wrapped := hip820_prefix ++ py_str (len mb) ++ [10] ++ mb).
  set (pub := public_bytes_raw private_key).
  set (signature := sign private_key wrapped).
  destruct (signature_map_layout_reads 26 pub signature eq_refl) as (R0 & R1 & R2).
  eexists. exists wrapped, (signature_map_layout 26 pub signature),
    (sig_pair_layout 26 pub signature), signature. eexists.
  split; [apply (authenticate_verify_body_Ok _ _ _ _ mb Hm)|].
  cbn [message_signed_plain_text signature_map_base64].
  split; [reflexivity|]. split; [exact Hm|].
  split; [reflexivity|].
  destruct (py_str_numeral (len mb) (len_nonneg mb)) as [Hnum Hval].
  split; [exact Hnum|]. split; [exact Hval|].
  split; [apply build_hip820_Ok|]. split; [apply hip820_longer|].
  split; [reflexivity|].
  split; [apply b64_unpack_encode, signature_map_layout_bytes;
          [lia | exact Hpub | apply Hsig]|].
  split; [exact R0|]. split; [exact R1|].
  split; [exact R2|]. split; [reflexivity|]. apply Hverify.
Qed.

Lemma demo_verify_sign (k m : bytes) :
  demo_verify (@public_bytes_raw _ demo_key k) m (@sign _ demo_key k m) = true.
Proof.
  unfold demo_verify. cbn [public_bytes_raw demo_key].
  destruct (list_eq_dec Z.eq_dec _ _) as [_|Hne]; [reflexivity | now elim Hne].
Qed.

Lemma demo_sign_bytes (k m : bytes) : wf_bytes (@sign _ demo_key k m).
Proof.
  cbn [sign demo_key]. unfold wf_bytes. apply Forall_forall. intros x Hx.
  apply in_map_iff in Hx. destruct Hx as (y & <- & _).
  apply Z.mod_pos_bound. lia.
Qed.

Lemma demo_public_bytes : wf_bytes (@public_bytes_raw _ demo_key [7; 7]).
Proof. cbn [public_bytes_raw demo_key]. repeat constructor; lia. Qed.

Lemma verify_body_asymmetry_witness :
  exists body wrapped signature,
    @authenticate_verify_body _ demo_key [7; 7] [] [] [104; 105] = Ok body
    /\ message_signed_plain_text body = [104; 105]
    /\ build_hip820 [104; 105] = Ok wrapped
    /\ signature = @sign _ demo_key [7; 7] wrapped
    /\ demo_verify [7; 7] wrapped signature = true.
Proof.
  destruct (@verify_body_asymmetry _ demo_key demo_verify [7; 7] [] [] [104; 105]
              [104; 105] demo_verify_sign demo_public_bytes
              (demo_sign_bytes [7; 7]) eq_refl)
    as (body & wrapped & map & inner & signature & p1 & H).
  exists body, wrapped, signature.
  repeat split; apply H.
Defined.

(** ** Key loading *)

(** Induction along the way [bytes.fromhex] consumes its argument. *)
Lemma fromhex_ind (P : str -> Prop) :
  P [] ->
  (forall c rest, is_space c = true -> P rest -> P (c :: rest)) ->
  (forall c, is_space c = false -> P [c]) ->
  (forall c d rest, is_space c = false -> P rest -> P (c :: d :: rest)) ->
  forall s, P s.
Proof.
  intros Hnil Hspace Hone Hpair s.
  assert (Hall : P s /\ forall a, P (a :: s)).
  { induction s as [|x s [IH0 IH1]].
    - split; [exact Hnil|]. intros a.
      destruct (is_space a) eqn:Ha; [apply Hspace; assumption | apply Hone; assumption].
    - split; [apply IH1|]. intros a.
      destruct (is_space a) eqn:Ha; [apply Hspace; [assumption | apply IH1]|].
      apply Hpair; assumption. }
  apply Hall.
Qed.

Lemma space_not_hex (c : Z) : is_space c = true -> hex_digit c = None.
Proof.
  unfold is_space, hex_digit. intros H.
  apply orb_true_iff in H.
  assert (Hc : c = 32 \/ 9 <= c <= 13).
  { destruct H as [H|H]; [left; now apply Z.eqb_eq|].
    apply andb_true_iff in H. destruct H as [H1 H2].
    apply Z.leb_le in H1. apply Z.leb_le in H2. right; lia. }
  repeat match goal with
         | |- context [?a <=? ?b] => destruct (Z.leb_spec a b); try lia
         end; reflexivity.
Qed.

(** The only exception [bytes.fromhex] raises is ValueError. *)
Lemma bytes_fromhex_raises (s : str) (e : exn) :
  bytes_fromhex s = Raise e -> e = ValueError.
Proof.
  revert e. induction s as [|c rest Hc IH|c Hc|c d rest Hc IH] using fromhex_ind;
    intros e; cbn [bytes_fromhex]; try rewrite Hc.
  - discriminate.
  - apply IH.
  - destruct (hex_digit c); intros E; injection E as <-; reflexivity.
  - destruct (hex_digit c); [|intros E; injection E as <-; reflexivity].
    destruct (hex_digit d); [|intros E; injection E as <-; reflexivity].
    destruct (bytes_fromhex rest) as [bs|e'] eqn:Hr; cbn [bind]; [discriminate|].
    intros E. injection E as <-. apply IH. reflexivity.
Qed.

(** What [bytes.fromhex] accepts holds only hex digits and whitespace. *)
Lemma bytes_fromhex_Ok_chars (s : str) (bs : bytes) :
  bytes_fromhex s = Ok bs ->
  Forall (fun c => is_space c = true \/ hex_digit c <> None) s.
Proof.
  revert bs. induction s as [|c rest Hc IH|c Hc|c d rest Hc IH] using fromhex_ind;
    intros bs; cbn [bytes_fromhex]; try rewrite Hc.
  - constructor.
  - intros E. constructor; [left; exact Hc | eapply IH; exact E].
  - destruct (hex_digit c); discriminate.
  - destruct (hex_digit c) as [top|] eqn:Htop; [|discriminate].
    destruct (hex_digit d) as [bot|] eqn:Hbot; [|discriminate].
    destruct (bytes_fromhex rest) as [bs'|e'] eqn:Hr; cbn [bind]; [|discriminate].
    intros _. constructor; [right; congruence|].
    constructor; [right; congruence|]. eapply IH. reflexivity.
Qed.

(** On text made of hex digits alone, the parity of the length decides. *)
Lemma bytes_fromhex_digits (s : str) :
  Forall (fun c => hex_digit c <> None) s ->
  if Nat.even (List.length s)
  then exists bs, bytes_fromhex s = Ok bs /\ 2 * len bs = len s
  else bytes_fromhex s = Raise ValueError.
Proof.
  induction s as [|c rest Hc IH|c Hc|c d rest Hc IH] using fromhex_ind; intros Hall.
  - exists []. split; reflexivity.
  - inversion Hall as [|? ? Hh _]; subst. rewrite (space_not_hex c Hc) in Hh. now elim Hh.
  - cbn [bytes_fromhex List.length Nat.even]. rewrite Hc.
    destruct (hex_digit c); reflexivity.
  - inversion Hall as [|? ? Hh1 Hall1]; subst.
    inversion Hall1 as [|? ? Hh2 Hall2]; subst.
    specialize (IH Hall2).
    cbn [bytes_fromhex List.length Nat.even]. rewrite Hc.
    destruct (hex_digit c) as [top|]; [|now elim Hh1].
    destruct (hex_digit d) as [bot|]; [|now elim Hh2].
    destruct (Nat.even (List.length rest)).
    + destruct IH as (bs & E & Hlen). rewrite E. cbn [bind].
      eexists. split; [reflexivity|]. len_norm. lia.
    + rewrite IH. reflexivity.
Qed.

(** C8, as stated, fails: key text that is no hex at all, or has an odd number
    of digits, is refused with ValueError, which is not the spec's
    KeyLoadError, and that whatever the DER parser would do. *)
Lemma malformed_key_raises_ValueError :
  load_ed25519_private_key (fun der : bytes => Ok der) (ascii_bytes "zz")
  = Raise ValueError
  /\ load_ed25519_private_key (fun der : bytes => Ok der) (ascii_bytes "302e0")
     = Raise ValueError
  /\ @Raise bytes ValueError <> Raise KeyLoadError
  /\ (forall (K : Type) (load_der_private_key : bytes -> result K),
        load_ed25519_private_key load_der_private_key (ascii_bytes "zz")
        <> Raise KeyLoadError).
Proof.
  split; [reflexivity|]. split; [reflexivity|]. split; [discriminate|].
  intros K loader. discriminate.
Qed.

(** C8, amended. Key text that [bytes.fromhex] refuses (a character that is
    neither a hex digit nor whitespace, or hex digits in odd number) makes the
    loader fail with ValueError before the DER parser is reached; for any
    other text the loader ends exactly as [load_der_private_key] ends on the
    decoded bytes, with its key or with its exception. *)
Theorem load_ed25519_private_key_outcome {K : Type}
    (load_der_private_key : bytes -> result K) (der_hex : str) :
  (forall e, bytes_fromhex der_hex = Raise e ->
     e = ValueError
     /\ load_ed25519_private_key load_der_private_key der_hex = Raise ValueError)
  /\ (forall der, bytes_fromhex der_hex = Ok der ->
        load_ed25519_private_key load_der_private_key der_hex
        = load_der_private_key der)
  /\ ((exists c, In c der_hex /\ is_space c = false /\ hex_digit c = None) ->
        load_ed25519_private_key load_der_private_key der_hex = Raise ValueError)
  /\ (Forall (fun c => hex_digit c <> None) der_hex ->
        Nat.odd (List.length der_hex) = true ->
        load_ed25519_private_key load_der_private_key der_hex = Raise ValueError)
  /\ (Forall (fun c => hex_digit c <> None) der_hex ->
        Nat.even (List.length der_hex) = true ->
        exists der, bytes_fromhex der_hex = Ok der /\ 2 * len der = len der_hex).
Proof.
  assert (Hraise : forall e, bytes_fromhex der_hex = Raise e ->
            load_ed25519_private_key load_der_private_key der_hex = Raise ValueError).
  { intros e He. pose proof (bytes_fromhex_raises _ _ He) as ->.
    unfold load_ed25519_private_key. rewrite He. reflexivity. }
  split; [|split; [|split; [|split]]].
  - intros e He. split; [eapply bytes_fromhex_raises; exact He | eapply Hraise; exact He].
  - intros der Hd. unfold load_ed25519_private_key. rewrite Hd. reflexivity.
  - intros (c & Hin & Hs & Hh).
    destruct (bytes_fromhex der_hex) as [bs|e] eqn:E; [|eapply Hraise; reflexivity].
    pose proof (bytes_fromhex_Ok_chars _ _ E) as Hall.
    rewrite Forall_forall in Hall. destruct (Hall c Hin) as [Hsp|Hhx]; congruence.
  - intros Hall Hodd. pose proof (bytes_fromhex_digits der_hex Hall) as Hd.
    rewrite <- Nat.negb_even in Hodd. apply negb_true_iff in Hodd.
    rewrite Hodd in Hd. eapply Hraise; exact Hd.
  - intros Hall Heven. pose proof (bytes_fromhex_digits der_hex Hall) as Hd.
    rewrite Heven in Hd. exact Hd.
Qed.

Lemma load_ed25519_private_key_outcome_witness :
  load_ed25519_private_key (fun der : bytes => Ok der) (ascii_bytes "30 2g")
  = Raise ValueError
  /\ load_ed25519_private_key (fun der : bytes => Ok (len der)) (ascii_bytes "302e")
     = Ok 2.
Proof.
  split.
  - apply (proj1 (proj2 (proj2 (@load_ed25519_private_key_outcome bytes
             (fun der => Ok der) (ascii_bytes "30 2g"))))).
    exists 103. repeat split. simpl. tauto.
  - apply (proj1 (proj2 (@load_ed25519_private_key_outcome Z
             (fun der => Ok (len der)) (ascii_bytes "302e"))) [48; 46]).
    reflexivity.
Defined.

(** ** Worked examples *)

Example hip820_hello :
  build_hip820 (ascii_bytes "hello")
  = Ok ([25] ++ ascii_bytes "Hedera Signed Message:" ++ [10]
        ++ ascii_bytes "5" ++ [10] ++ ascii_bytes "hello").
Proof. reflexivity. Qed.

Example varint_two_bytes : encode_varint 16383 = Ok [255; 127].
Proof. reflexivity. Qed.

Example varint_read_in_place : decode_varint [10; 172; 2; 99] 1 = Ok (300, 3).
Proof. reflexivity. Qed.

Example varint_read_truncated : decode_varint [172] 0 = Ok (44, 1).
Proof. reflexivity. Qed.

Example b64_padding :
  b64encode (ascii_bytes "hello") = ascii_bytes "aGVsbG8="
  /\ b64encode [251; 255; 254] = ascii_bytes "+//+".
Proof. split; reflexivity. Qed.

Example utf8_length_in_bytes :
  (m <- utf8_encode [233] ;; build_hip820 m)
  = Ok (hip820_prefix ++ ascii_bytes "2" ++ [10; 195; 169]).
Proof. reflexivity. Qed.

Example fromhex_whitespace :
  bytes_fromhex (ascii_bytes "30 2e") = Ok [48; 46]
  /\ bytes_fromhex (ascii_bytes "3 02e") = Raise ValueError.
Proof. split; reflexivity. Qed.

(** * Further properties of the scripts *)

(** ** [decode_varint] stays inside the buffer *)

Lemma getitem_in_range (data : list Z) (i : Z) :
  0 <= i < len data -> getitem data i = Ok (nth (Z.to_nat i) data 0).
Proof.
  intros Hi. unfold getitem.
  destruct (Z.ltb_spec i 0); [lia|].
  destruct (Z.leb_spec 0 i); [|lia].
  destruct (Z.ltb_spec i (len data)); [|lia]. reflexivity.
Qed.

Lemma lor_below (a b n : Z) :
  0 <= n -> 0 <= a < 2 ^ n -> 0 <= b < 2 ^ n -> 0 <= Z.lor a b < 2 ^ n.
Proof.
  intros Hn Ha Hb.
  assert (Hnn : 0 <= Z.lor a b) by (apply Z.lor_nonneg; lia).
  split; [exact Hnn|].
  destruct (Z.eq_dec (Z.lor a b) 0) as [->|Hne]; [lia|].
  assert (Hpos : 0 < n).
  { destruct (Z.eq_dec n 0) as [->|]; [|lia]. change (2 ^ 0) with 1 in *.
    assert (a = 0) by lia. assert (b = 0) by lia. subst. now elim Hne. }
  apply Z.log2_lt_pow2; [lia|].
  rewrite Z.log2_lor by lia.
  apply Z.max_lub_lt.
  - destruct (Z.eq_dec a 0) as [->|Ha0]; [exact Hpos|]. apply Z.log2_lt_pow2; lia.
  - destruct (Z.eq_dec b 0) as [->|Hb0]; [exact Hpos|]. apply Z.log2_lt_pow2; lia.
Qed.

Lemma decode_varint_loop_bounds (todo : nat) :
  forall (data : bytes) (value shift pos : Z),
    0 <= pos -> Z.of_nat todo <= Z.max 0 (len data - pos) ->
    0 <= shift -> 0 <= value < 2 ^ shift ->
    exists v p,
      decode_varint_loop todo data value shift pos = Ok (v, p)
      /\ pos <= p <= pos + Z.of_nat todo
      /\ 0 <= v < 2 ^ (shift + 7 * (p - pos)).
Proof.
  induction todo as [|todo IH]; intros data value shift pos Hpos Htodo Hshift Hvalue.
  - exists value, pos. split; [reflexivity|]. split; [lia|].
    replace (shift + 7 * (pos - pos)) with shift by lia. exact Hvalue.
  - cbn [decode_varint_loop].
    rewrite getitem_in_range by lia. cbn [bind].
    set (byte := nth (Z.to_nat pos) data 0).
    assert (Hv1 : 0 <= Z.lor value (Z.shiftl (Z.land byte 127) shift) < 2 ^ (shift + 7)).
    { apply lor_below; [lia | |].
      - split; [lia|]. apply Z.lt_le_trans with (2 ^ shift); [lia|].
        apply Z.pow_le_mono_r; lia.
      - pose proof (land_127_range byte) as Hb.
        rewrite Z.shiftl_mul_pow2 by lia. rewrite Z.pow_add_r by lia.
        change (2 ^ 7) with 128.
        assert (0 < 2 ^ shift) by (apply Z.pow_pos_nonneg; lia). nia. }
    destruct (Z.land byte 128 =? 0).
    + eexists _, _. split; [reflexivity|]. split; [lia|].
      replace (shift + 7 * (pos + 1 - pos)) with (shift + 7) by lia. exact Hv1.
    + destruct (IH data (Z.lor value (Z.shiftl (Z.land byte 127) shift)) (shift + 7)
                  (pos + 1)) as (v & p & E & Hp & Hv); try lia.
      exists v, p. split; [exact E|]. split; [lia|].
      replace (shift + 7 * (p - pos)) with (shift + 7 + 7 * (p - (pos + 1))) by lia.
      exact Hv.
Qed.

Lemma decode_varint_within (data : bytes) (pos : Z) :
  0 <= pos ->
  exists v p,
    decode_varint data pos = Ok (v, p)
    /\ pos <= p <= Z.max pos (len data)
    /\ 0 <= v < 2 ^ (7 * (p - pos))
    /\ (len data <= pos -> v = 0 /\ p = pos).
Proof.
  intros Hpos. unfold decode_varint.
  destruct (decode_varint_loop_bounds (Z.to_nat (len data - pos)) data 0 0 pos)
    as (v & p & E & Hp & Hv).
  1-4: try (change (2 ^ 0) with 1); lia.
  exists v, p. split; [exact E|]. split; [lia|]. split; [exact Hv|].
  intros Hend. assert (p = pos) by lia. subst p.
  replace (0 + 7 * (pos - pos)) with 0 in Hv by lia.
  change (2 ^ 0) with 1 in Hv. lia.
Qed.

(** [decode_varint] never raises from a position at or after the start of the
    buffer: it returns a non-negative value and a position between [pos] and
    the end of the buffer, the value fitting in seven bits per byte consumed;
    at or beyond the end it reads nothing and returns 0. *)
Theorem decode_varint_bounds (data : bytes) (pos : Z) :
  0 <= pos ->
  exists v p,
    decode_varint data pos = Ok (v, p)
    /\ pos <= p <= Z.max pos (len data)
    /\ 0 <= v < 2 ^ (7 * (p - pos))
    /\ (len data <= pos -> v = 0 /\ p = pos).
Proof. exact (decode_varint_within data pos). Qed.

Lemma decode_varint_bounds_witness :
  exists v p, decode_varint [172; 2; 7] 0 = Ok (v, p) /\ 0 <= p <= Z.max 0 3.
Proof.
  destruct (decode_varint_bounds [172; 2; 7] 0 ltac:(lia)) as (v & p & E & Hp & _).
  exists v, p. split; [exact E | exact Hp].
Defined.

(** ** The field loop of [sign_with_hedera_sdk] *)

Lemma read_field_advances (data : bytes) (pos : Z) :
  0 <= pos < len data ->
  exists fn wt d p,
    read_field data pos = Ok (fn, wt, d, p) /\ pos < p.
Proof.
  intros Hpos. unfold read_field.
  rewrite getitem_in_range by lia. cbn [bind].
  destruct (Z.land (nth (Z.to_nat pos) data 0) 7 =? 2).
  - destruct (decode_varint_within data (pos + 1) ltac:(lia)) as (v & p & E & Hp & Hv & _).
    rewrite E. cbn [bind fst snd]. eexists _, _, _, _. split; [reflexivity|]. lia.
  - eexists _, _, _, _. split; [reflexivity|]. lia.
Qed.

(** With enough iterations allowed, the loop ends by its own test, and the
    allowance does not matter. *)
Lemma extract_body_loop_enough (todo : nat) :
  forall (data : bytes) (pos : Z) (body : option bytes),
    0 <= pos -> len data - pos <= Z.of_nat todo ->
    exists r,
      extract_body_loop todo data pos body = Ok r
      /\ forall todo' : nat,
           len data - pos <= Z.of_nat todo' ->
           extract_body_loop todo' data pos body = Ok r.
Proof.
  induction todo as [|todo IH]; intros data pos body Hpos Htodo.
  - exists body. cbn [extract_body_loop].
    destruct (Z.ltb_spec pos (len data)); [lia|]. split; [reflexivity|].
    intros todo' _. destruct todo'; cbn [extract_body_loop];
      destruct (Z.ltb_spec pos (len data)); try lia; reflexivity.
  - cbn [extract_body_loop]. destruct (Z.ltb_spec pos (len data)) as [Hlt|Hge].
    + destruct (read_field_advances data pos ltac:(lia)) as (fn & wt & d & p & E & Hp).
      rewrite E. cbn [bind].
      destruct (IH data p
                  (match d with
                   | Some d0 => if fn =? 1 then Some d0 else body
                   | None => body
                   end) ltac:(lia) ltac:(lia)) as (r & Er & Hr).
      exists r. split; [exact Er|].
      intros todo' Htodo'. destruct todo' as [|todo']; [lia|].
      cbn [extract_body_loop]. destruct (Z.ltb_spec pos (len data)); [|lia].
      rewrite E. cbn [bind]. apply Hr. lia.
    + exists body. split; [reflexivity|].
      intros todo' _. destruct todo'; cbn [extract_body_loop];
        destruct (Z.ltb_spec pos (len data)); try lia; reflexivity.
Qed.

(** The loop as the [while] statement reads. *)
Lemma extract_body_loop_unfold (data : bytes) (pos : Z) (body : option bytes) :
  0 <= pos ->
  extract_body_loop (Z.to_nat (len data - pos)) data pos body =
  if pos <? len data then
    f <- read_field data pos ;;
    let '(field_number, wire_type, d, pos') := f in
    extract_body_loop (Z.to_nat (len data - pos')) data pos'
      (match d with
       | Some d0 => if field_number =? 1 then Some d0 else body
       | None => body
       end)
  else Ok body.
Proof.
  intros Hpos. destruct (Z.ltb_spec pos (len data)) as [Hlt|Hge].
  - destruct (read_field_advances data pos ltac:(lia)) as (fn & wt & d & p & E & Hp).
    rewrite E. cbn [bind].
    replace (Z.to_nat (len data - pos)) with (S (Z.to_nat (len data - pos - 1))) by lia.
    cbn [extract_body_loop]. destruct (Z.ltb_spec pos (len data)); [|lia].
    rewrite E. cbn [bind].
    set (body' := match d with
                  | Some d0 => if fn =? 1 then Some d0 else body
                  | None => body
                  end).
    destruct (extract_body_loop_enough (Z.to_nat (len data - pos - 1)) data p body'
                ltac:(lia) ltac:(lia)) as (r & Er & Hr).
    rewrite Er. symmetry. apply Hr. lia.
  - replace (Z.to_nat (len data - pos)) with O by lia.
    cbn [extract_body_loop]. destruct (Z.ltb_spec pos (len data)); [lia | reflexivity].
Qed.

Lemma write_field_len (f : Z * bytes) :
  len (write_field f) = 1 + len (base128_varint (len (snd f))) + len (snd f).
Proof. unfold write_field. len_norm. lia. Qed.

(** Over fields written one after the other the loop keeps the payload of
    the last field numbered 1 and goes on with what follows them. *)
Lemma extract_written_fields (fields : list (Z * bytes)) :
  Forall (fun f => Z.land (fst f) 7 = 2) fields ->
  forall (pre post : bytes) (body : option bytes),
    let data := pre ++ write_fields fields ++ post in
    extract_body_loop (Z.to_nat (len data - len pre)) data (len pre) body
    = extract_body_loop
        (Z.to_nat (len data - len (pre ++ write_fields fields))) data
        (len (pre ++ write_fields fields))
        (fold_left
           (fun found f => if Z.shiftr (fst f) 3 =? 1 then Some (snd f) else found)
           fields body).
Proof.
  induction 1 as [|[tag payload] fields Htag Hall IH]; intros pre post body data.
  - unfold data, write_fields. cbn [map List.concat fold_left app].
    rewrite app_nil_r. reflexivity.
  - rewrite extract_body_loop_unfold by apply len_nonneg.
    assert (Hdata : data = pre ++ [tag] ++ base128_varint (len payload) ++ payload
                             ++ write_fields fields ++ post).
    { unfold data, write_fields. cbn [map List.concat]. unfold write_field.
      cbn [fst snd]. rewrite <- !app_assoc. reflexivity. }
    assert (Hlt : (len pre <? len data) = true).
    { apply Z.ltb_lt. rewrite Hdata. len_norm.
      pose proof (len_nonneg (base128_varint (len payload))).
      pose proof (len_nonneg payload).
      pose proof (len_nonneg (write_fields fields)). pose proof (len_nonneg post). lia. }
    rewrite Hlt. rewrite Hdata at 1.
    rewrite (read_field_written pre tag payload (write_fields fields ++ post) Htag).
    cbn [bind fold_left fst snd].
    set (body' := if Z.shiftr tag 3 =? 1 then Some payload else body).
    specialize (IH (pre ++ write_field (tag, payload)) post body').
    cbn zeta in IH.
    assert (Hdata' : (pre ++ write_field (tag, payload)) ++ write_fields fields ++ post
                     = data).
    { rewrite Hdata. unfold write_field. cbn [fst snd]. rewrite <- !app_assoc.
      reflexivity. }
    rewrite Hdata' in IH.
    replace (len (pre ++ write_field (tag, payload)))
      with (len pre + 1 + len (base128_varint (len payload)) + len payload) in IH
      by (len_norm; rewrite write_field_len; cbn [fst snd]; lia).
    rewrite IH. f_equal.
    + f_equal. f_equal. f_equal. unfold write_fields. cbn [map List.concat].
      rewrite app_assoc. reflexivity.
    + f_equal. unfold write_fields. cbn [map List.concat].
      rewrite app_assoc. reflexivity.
Qed.

Lemma extract_body_loop_at_end (data : bytes) (pos : Z) (body : option bytes) :
  len data <= pos ->
  extract_body_loop (Z.to_nat (len data - pos)) data pos body = Ok body.
Proof.
  intros H. replace (Z.to_nat (len data - pos)) with O by lia.
  cbn [extract_body_loop]. destruct (Z.ltb_spec pos (len data)); [lia | reflexivity].
Qed.

Lemma slice_clamped (pre mid : list Z) (n : Z) :
  len mid <= n -> slice (pre ++ mid) (len pre) (len pre + n) = mid.
Proof.
  intros Hn. unfold slice, slice_index. len_norm.
  pose proof (len_nonneg pre). pose proof (len_nonneg mid).
  destruct (Z.ltb_spec (len pre) 0); [lia|].
  destruct (Z.ltb_spec (len pre + n) 0); [lia|].
  rewrite (Z.min_r (len pre + len mid) (len pre)) by lia.
  rewrite (Z.min_l (len pre + len mid) (len pre + n)) by lia.
  rewrite !Z.max_r by lia.
  replace (len pre + len mid - len pre) with (len mid) by lia.
  unfold len. rewrite !Nat2Z.id.
  rewrite skipn_app, skipn_all, Nat.sub_diag. cbn [skipn app].
  apply firstn_all.
Qed.

(** A field whose declared length runs past the end of the buffer is read
    with the bytes that are there. *)
Lemma read_field_truncated (pre : bytes) (tag n : Z) (part : bytes) :
  Z.land tag 7 = 2 -> len part <= n ->
  read_field (pre ++ [tag] ++ base128_varint n ++ part) (len pre)
  = Ok (Z.shiftr tag 3, 2, Some part,
        len pre + 1 + len (base128_varint n) + n).
Proof.
  intros Htag Hn. unfold read_field.
  cbn [app]. rewrite getitem_app. cbn [bind]. rewrite Htag. cbn [Z.eqb Pos.eqb].
  pose proof (len_nonneg part) as Hp.
  rewrite <- encode_varint_loop_base128 by lia.
  set (lv := encode_varint_loop n []).
  replace (pre ++ tag :: lv ++ part) with ((pre ++ [tag]) ++ lv ++ part)
    by (rewrite <- app_assoc; reflexivity).
  replace (len pre + 1) with (len (pre ++ [tag])) by (len_norm; lia).
  unfold lv at 1. rewrite decode_varint_encode_at by lia. fold lv.
  cbn [bind fst snd].
  replace ((pre ++ [tag]) ++ lv ++ part) with (((pre ++ [tag]) ++ lv) ++ part)
    by (rewrite <- !app_assoc; reflexivity).
  replace (len (pre ++ [tag]) + len lv) with (len ((pre ++ [tag]) ++ lv))
    by (len_norm; lia).
  rewrite slice_clamped by assumption. reflexivity.
Qed.

Lemma extract_body_bytes_of_fields (fields : list (Z * bytes)) :
  Forall (fun f => Z.land (fst f) 7 = 2) fields ->
  extract_body_bytes (write_fields fields) = Ok (last_field_1 fields).
Proof.
  intros Hall. unfold extract_body_bytes.
  pose proof (extract_written_fields fields Hall [] [] None) as H.
  cbn zeta in H. rewrite app_nil_r in H. cbn [app] in H.
  rewrite len_nil, Z.sub_0_r in H. rewrite H.
  apply extract_body_loop_at_end. lia.
Qed.

(** The loop of [sign_with_hedera_sdk] is a reader of the writer: on a
    message written as length-delimited fields it ends with the payload of
    the last field numbered 1, or with [None] when there is none. *)
Theorem extract_body_bytes_written (fields : list (Z * bytes)) :
  Forall (fun f => Z.land (fst f) 7 = 2) fields ->
  extract_body_bytes (write_fields fields) = Ok (last_field_1 fields).
Proof. exact (extract_body_bytes_of_fields fields). Qed.

Lemma extract_body_bytes_written_witness :
  extract_body_bytes (write_fields [(10, [1; 2]); (18, [3]); (10, [4; 5; 6])])
  = Ok (last_field_1 [(10, [1; 2]); (18, [3]); (10, [4; 5; 6])]).
Proof.
  apply (extract_body_bytes_written [(10, [1; 2]); (18, [3]); (10, [4; 5; 6])]).
  repeat constructor.
Defined.

(** The loop checks no length: when the last field announces more bytes than
    the buffer holds, the bytes that are there are taken as its payload, and
    for field 1 they become the body without any error. *)
Theorem extract_body_bytes_truncated (fields : list (Z * bytes)) (n : Z) (part : bytes) :
  Forall (fun f => Z.land (fst f) 7 = 2) fields ->
  len part < n ->
  extract_body_bytes (write_fields fields ++ [10] ++ base128_varint n ++ part)
  = Ok (Some part).
Proof.
  intros Hall Hn. unfold extract_body_bytes.
  pose proof (extract_written_fields fields Hall [] ([10] ++ base128_varint n ++ part)
                None) as H.
  cbn zeta in H. cbn [app] in H. rewrite len_nil, Z.sub_0_r in H.
  cbn [app]. rewrite H. clear H.
  rewrite extract_body_loop_unfold by apply len_nonneg.
  assert (Hlt : (len (write_fields fields)
                 <? len (write_fields fields ++ 10 :: base128_varint n ++ part)) = true).
  { apply Z.ltb_lt. len_norm. pose proof (len_nonneg (base128_varint n)).
    pose proof (len_nonneg part). lia. }
  rewrite Hlt.
  pose proof (read_field_truncated (write_fields fields) 10 n part eq_refl ltac:(lia)) as R.
  cbn [app] in R. rewrite R. cbn [bind].
  change (Z.shiftr 10 3 =? 1) with true. cbv iota.
  apply extract_body_loop_at_end. len_norm. lia.
Qed.

Lemma extract_body_bytes_truncated_witness :
  extract_body_bytes (write_fields [(18, [9])] ++ [10] ++ base128_varint 5 ++ [1; 2])
  = Ok (Some [1; 2]).
Proof.
  apply (extract_body_bytes_truncated [(18, [9])] 5 [1; 2]).
  - repeat constructor.
  - reflexivity.
Defined.

Lemma assemble_signed_transaction_Ok {K : Type} `{HederaKey K}
    (key : K) (body : bytes) :
  assemble_signed_transaction key body
  = Ok (write_fields
          [(10, body);
           (18, signature_map_layout 26 (hedera_public_raw key) (hedera_sign key body))]).
Proof.
  unfold assemble_signed_transaction, write_fields, write_field.
  cbn [map List.concat fst snd].
  repeat (rewrite encode_varint_Ok; cbn [bind]).
  rewrite !encode_varint_loop_base128 by apply len_nonneg.
  unfold signature_map_layout, sig_pair_layout.
  cbn [app]. rewrite <- !app_assoc. cbn [app]. rewrite app_nil_r. reflexivity.
Qed.

(** Once a body is found, [sign_with_hedera_sdk] returns the base64 text of a
    transaction that reads back: the same loop finds the same body in it, its
    field 2 is the signature map the other scripts build with
    [build_signature_map], and that map holds the signature of the body. *)
Theorem sign_with_hedera_sdk_roundtrip {K : Type} `{HederaKey K}
    (key : K) (returned_bytes body : bytes) :
  extract_body_bytes returned_bytes = Ok (Some body) ->
  exists tx sm,
    sign_with_hedera_sdk key returned_bytes = Some (b64encode tx)
    /\ build_signature_map (hedera_public_raw key) (hedera_sign key body) = Ok sm
    /\ tx = write_fields [(10, body); (18, sm)]
    /\ extract_body_bytes tx = Ok (Some body)
    /\ read_field tx 0
       = Ok (1, 2, Some body, 1 + len (base128_varint (len body)) + len body)
    /\ read_field tx (1 + len (base128_varint (len body)) + len body)
       = Ok (2, 2, Some sm, len tx).
Proof.
  intros Hbody.
  set (sm := signature_map_layout 26 (hedera_public_raw key) (hedera_sign key body)).
  exists (write_fields [(10, body); (18, sm)]), sm.
  split.
  { unfold sign_with_hedera_sdk. rewrite Hbody, assemble_signed_transaction_Ok.
    cbn [bind]. rewrite utf8_decode_ascii by apply b64encode_ascii. reflexivity. }
  split; [apply build_signature_map_Ok|]. split; [reflexivity|].
  split.
  { rewrite extract_body_bytes_of_fields by (repeat constructor). reflexivity. }
  unfold write_fields, write_field. cbn [map List.concat fst snd].
  rewrite app_nil_r. split.
  - pose proof (read_field_written [] 10 body
                  ([18] ++ base128_varint (len sm) ++ sm) eq_refl) as R.
    rewrite len_nil in R. cbn [app] in *. rewrite <- !app_assoc.
    cbn [app]. rewrite R; repeat f_equal; lia.
  - pose proof (read_field_written ([10] ++ base128_varint (len body) ++ body) 18 sm []
                  eq_refl) as R.
    rewrite app_nil_r in R.
    replace (len ([10] ++ base128_varint (len body) ++ body))
      with (1 + len (base128_varint (len body)) + len body) in R by (len_norm; lia).
    rewrite <- !app_assoc in *. cbn [app] in *. rewrite R;
      repeat f_equal; len_norm; lia.
Qed.

Lemma sign_with_hedera_sdk_roundtrip_witness :
  exists tx sm,
    @sign_with_hedera_sdk _ demo_hedera_key [7] (write_fields [(10, [1; 2])])
    = Some (b64encode tx)
    /\ tx = write_fields [(10, [1; 2]); (18, sm)]
    /\ extract_body_bytes tx = Ok (Some [1; 2]).
Proof.
  destruct (@sign_with_hedera_sdk_roundtrip _ demo_hedera_key [7]
              (write_fields [(10, [1; 2])]) [1; 2] eq_refl)
    as (tx & sm & H1 & _ & H3 & H4 & _).
  exists tx, sm. repeat split; assumption.
Defined.

(** [sign_with_hedera_sdk] gives up in one case only.  The loop never fails,
    whatever bytes it is given, and the function returns [None] exactly when
    the loop found no length-delimited field 1, as on the empty input. *)
Theorem sign_with_hedera_sdk_None {K : Type} `{HederaKey K}
    (key : K) (returned_bytes : bytes) :
  (exists found, extract_body_bytes returned_bytes = Ok found)
  /\ (sign_with_hedera_sdk key returned_bytes = None
      <-> extract_body_bytes returned_bytes = Ok None)
  /\ sign_with_hedera_sdk key [] = None.
Proof.
  assert (Htotal : exists found, extract_body_bytes returned_bytes = Ok found).
  { unfold extract_body_bytes.
    destruct (extract_body_loop_enough (Z.to_nat (len returned_bytes)) returned_bytes 0
                None ltac:(lia) ltac:(pose proof (len_nonneg returned_bytes); lia))
      as (r & E & _).
    exists r. exact E. }
  split; [exact Htotal|]. split; [|reflexivity].
  destruct Htotal as ([body|] & E).
  - unfold sign_with_hedera_sdk. rewrite E, assemble_signed_transaction_Ok.
    cbn [bind]. rewrite utf8_decode_ascii by apply b64encode_ascii.
    split; discriminate.
  - unfold sign_with_hedera_sdk. rewrite E. split; reflexivity.
Qed.

(** ** Varints of any size *)

(** For every non-negative integer, however large, [encode_varint] writes the
    shortest varint: one byte per started group of seven bits, with the value
    recoverable from the bytes. *)
Theorem encode_varint_minimal (v : Z) :
  0 <= v ->
  exists bs,
    encode_varint v = Ok bs
    /\ len bs = 1 + Z.log2 v / 7
    /\ varint_wire bs
    /\ varint_value bs = v
    /\ v < 128 ^ len bs
    /\ (1 < len bs -> 128 ^ (len bs - 1) <= v).
Proof.
  intros Hv. exists (base128_varint v).
  assert (Hlen : len (base128_varint v) = 1 + Z.log2 v / 7).
  { unfold len, base128_varint. rewrite base128_groups_length.
    pose proof (Z.log2_nonneg v). assert (0 <= Z.log2 v / 7) by (apply Z.div_pos; lia).
    lia. }
  pose proof (Z.log2_nonneg v) as Hlog.
  assert (Hq : 0 <= Z.log2 v / 7) by (apply Z.div_pos; lia).
  pose proof (Z.div_mod (Z.log2 v) 7 ltac:(lia)) as Hdm.
  pose proof (Z.mod_pos_bound (Z.log2 v) 7 ltac:(lia)) as Hmod.
  split; [rewrite encode_varint_Ok, encode_varint_loop_base128 by lia; reflexivity|].
  split; [exact Hlen|]. split; [apply base128_groups_wire|].
  split; [rewrite <- encode_varint_loop_base128 by lia;
          apply encode_varint_loop_value; lia|].
  rewrite Hlen. change 128 with (2 ^ 7). rewrite <- !Z.pow_mul_r by lia.
  split.
  - destruct (Z.eq_dec v 0) as [->|Hne].
    + apply Z.pow_pos_nonneg; lia.
    + apply Z.log2_lt_pow2; lia.
  - intros Hmore.
    apply Z.le_trans with (2 ^ Z.log2 v).
    + apply Z.pow_le_mono_r; lia.
    + apply Z.log2_spec. destruct (Z.eq_dec v 0) as [->|Hne]; [|lia].
      change (Z.log2 0) with 0 in *. cbn in Hmore. lia.
Qed.

Lemma encode_varint_minimal_witness :
  exists bs, encode_varint (2 ^ 70) = Ok bs /\ len bs = 1 + Z.log2 (2 ^ 70) / 7.
Proof.
  destruct (encode_varint_minimal (2 ^ 70) ltac:(lia)) as (bs & E & L & _).
  exists bs. split; assumption.
Defined.

(** ** Signature maps of any size *)

(** Whatever the lengths of key and signature, the map of
    [build_signature_map_protobuf] reads back: its one outer field holds the
    signature pair, whose field 1 is the key and whose field 3 (for
    [ed25519]) or 6 (for any other key type) is the signature; and the
    two-argument [build_signature_map] of the other scripts builds the
    [ed25519] map byte for byte. *)
Theorem signature_map_reads_back (pub sig : bytes) (key_type : string) :
  exists sm inner p1,
    build_signature_map_protobuf pub sig key_type = Ok sm
    /\ read_field sm 0 = Ok (1, 2, Some inner, len sm)
    /\ read_field inner 0 = Ok (1, 2, Some pub, p1)
    /\ read_field inner p1
       = Ok ((if String.eqb key_type "ed25519" then 3 else 6), 2, Some sig, len inner)
    /\ build_signature_map pub sig = build_signature_map_protobuf pub sig "ed25519".
Proof.
  rewrite build_signature_map_protobuf_Ok.
  set (tag := if String.eqb key_type "ed25519" then 26 else 50).
  assert (Htag : Z.land tag 7 = 2) by (unfold tag; destruct (String.eqb _ _); reflexivity).
  destruct (signature_map_layout_reads tag pub sig Htag) as (R0 & R1 & R2).
  eexists _, _, _. split; [reflexivity|]. split; [exact R0|]. split; [exact R1|].
  split.
  - rewrite R2. unfold tag. destruct (String.eqb key_type "ed25519"); reflexivity.
  - rewrite build_signature_map_Ok, build_signature_map_protobuf_Ok. reflexivity.
Qed.

(** Two maps are equal only if they were built from the same key and the
    same signature. *)
Theorem build_signature_map_injective (pub sig pub' sig' : bytes) :
  build_signature_map pub sig = build_signature_map pub' sig' ->
  pub = pub' /\ sig = sig'.
Proof.
  rewrite !build_signature_map_Ok. intros E.
  assert (Emap : signature_map_layout 26 pub sig = signature_map_layout 26 pub' sig')
    by congruence.
  destruct (signature_map_layout_reads 26 pub sig eq_refl) as (R0 & R1 & R2).
  destruct (signature_map_layout_reads 26 pub' sig' eq_refl) as (R0' & R1' & R2').
  rewrite Emap, R0' in R0.
  assert (Einner : sig_pair_layout 26 pub' sig' = sig_pair_layout 26 pub sig)
    by congruence.
  rewrite <- Einner, R1' in R1.
  assert (Epub : pub' = pub) by congruence. subst pub'.
  rewrite <- Einner, R2' in R2.
  split; [reflexivity | congruence].
Qed.

Lemma build_signature_map_injective_witness : [1; 2] = [1; 2] /\ [3] = [3].
Proof.
  apply (build_signature_map_injective [1; 2] [3] [1; 2] [3]). reflexivity.
Defined.

(** ** HIP-820 framing *)

Lemma decimal_digits_same_length (m1 m2 : bytes) :
  py_str (len m1) = py_str (len m2) -> len m1 = len m2.
Proof.
  intros E.
  destruct (py_str_numeral (len m1) (len_nonneg m1)) as [_ V1].
  destruct (py_str_numeral (len m2) (len_nonneg m2)) as [_ V2].
  rewrite <- V1, <- V2, E. reflexivity.
Qed.

(** The framing is self-delimiting: a wrapped message followed by further
    bytes is never the wrapping of another message. *)
Theorem build_hip820_prefix_free (m1 m2 extra w1 : bytes) :
  build_hip820 m1 = Ok w1 ->
  build_hip820 m2 = Ok (w1 ++ extra) ->
  m1 = m2 /\ extra = [].
Proof.
  rewrite !build_hip820_Ok. intros E1 E2. injection E1 as <-. injection E2 as E2.
  assert (E : py_str (len m2) ++ 10 :: m2 = py_str (len m1) ++ 10 :: (m1 ++ extra)).
  { apply (app_inv_head hip820_prefix). cbn [app] in *.
    rewrite <- !app_assoc in E2. cbn [app] in E2. rewrite <- E2. reflexivity. }
  destruct (py_str_numeral (len m1) (len_nonneg m1)) as [[Hr1 _] _].
  destruct (py_str_numeral (len m2) (len_nonneg m2)) as [[Hr2 _] _].
  destruct (split_at_newline _ _ _ _ Hr2 Hr1 E) as [Ed Em].
  pose proof (decimal_digits_same_length m2 m1 Ed) as Hlen.
  assert (Hx : extra = []).
  { apply (f_equal len) in Em. rewrite len_app in Em.
    destruct extra as [|x extra]; [reflexivity|].
    rewrite len_cons in Em. pose proof (len_nonneg extra). lia. }
  subst extra. rewrite app_nil_r in Em. split; [symmetry; exact Em | reflexivity].
Qed.

Lemma build_hip820_prefix_free_witness :
  [104; 105] = [104; 105] /\ (@nil Z) = [].
Proof.
  apply (build_hip820_prefix_free [104; 105] [104; 105] []
           (hip820_prefix ++ [50; 10; 104; 105])); reflexivity.
Defined.

(** ** The message bytes *)

Lemma utf8_encode_char_outcome (c : Z) :
  if utf8_encodable c
  then exists bc, utf8_encode_char c = Ok bc
                  /\ 1 <= len bc <= 4 /\ (len bc = 1 <-> c < 128)
  else utf8_encode_char c = Raise UnicodeEncodeError.
Proof.
  unfold utf8_encodable, utf8_encode_char.
  destruct (Z.ltb_spec c 0); [destruct (Z.leb_spec 0 c); [lia | reflexivity]|].
  destruct (Z.leb_spec 0 c); [|lia]. cbn [andb].
  destruct (Z.ltb_spec c 128).
  { destruct (Z.ltb_spec c 1114112); [|lia].
    destruct (Z.leb_spec 55296 c); [lia|]. cbn [andb negb].
    eexists. split; [reflexivity|]. cbn. split; [lia|]. split; intros; lia. }
  destruct (Z.ltb_spec c 2048).
  { destruct (Z.ltb_spec c 1114112); [|lia].
    destruct (Z.leb_spec 55296 c); [lia|]. cbn [andb negb].
    eexists. split; [reflexivity|]. len_norm. split; [lia|]. split; intros; lia. }
  destruct (Z.ltb_spec c 65536).
  { destruct (Z.ltb_spec c 1114112); [|lia]. cbn [andb].
    destruct (Z.leb_spec 55296 c); destruct (Z.leb_spec c 57343);
      cbn [andb negb]; try reflexivity;
      (eexists; split; [reflexivity|]; len_norm; split; [lia|]; split; intros; lia). }
  destruct (Z.ltb_spec c 1114112); cbn [andb]; [|reflexivity].
  destruct (Z.leb_spec 55296 c); destruct (Z.leb_spec c 57343); try lia;
    cbn [andb negb];
    (eexists; split; [reflexivity|]; len_norm; split; [lia|]; split; intros; lia).
Qed.

Lemma utf8_encode_outcome (s : str) :
  if forallb utf8_encodable s
  then exists mb, utf8_encode s = Ok mb
                  /\ len s <= len mb <= 4 * len s
                  /\ (len mb = len s <-> Forall (fun c => c < 128) s)
  else utf8_encode s = Raise UnicodeEncodeError.
Proof.
  induction s as [|c s IH].
  - exists []. split; [reflexivity|]. split; [cbn; lia|]. split; [constructor | reflexivity].
  - cbn [forallb utf8_encode]. pose proof (utf8_encode_char_outcome c) as Hc.
    destruct (utf8_encodable c); cbn [andb].
    + destruct Hc as (bc & Ec & Hlen & Hone). rewrite Ec. cbn [bind].
      destruct (forallb utf8_encodable s).
      * destruct IH as (mb & Es & Hs & Hall). rewrite Es. cbn [bind].
        eexists. split; [reflexivity|]. len_norm. split; [lia|]. split.
        -- intros Heq. assert (len bc = 1) by lia. assert (len mb = len s) by lia.
           constructor; [apply Hone; assumption | apply Hall; assumption].
        -- intros Hf. inversion Hf as [|? ? Hc1 Hs1]; subst.
           apply Hone in Hc1. apply Hall in Hs1. lia.
      * rewrite IH. reflexivity.
    + rewrite Hc. reflexivity.
Qed.

(** The length in the HIP-820 header is the number of UTF-8 bytes of the
    challenge message, not its number of characters: between one and four
    per character, and equal to the character count only for pure ASCII. *)
Theorem hip820_header_counts_bytes (message : str) (mb : bytes) :
  utf8_encode message = Ok mb ->
  (m <- utf8_encode message ;; build_hip820 m)
  = Ok (hip820_prefix ++ py_str (len mb) ++ [10] ++ mb)
  /\ decimal_value (py_str (len mb)) = len mb
  /\ len message <= len mb <= 4 * len message
  /\ (len mb = len message <-> Forall (fun c => c < 128) message).
Proof.
  intros Hm. pose proof (utf8_encode_outcome message) as Ho.
  destruct (forallb utf8_encodable message); [|congruence].
  destruct Ho as (mb' & E & Hlen & Hascii).
  assert (mb' = mb) by congruence. subst mb'.
  split; [rewrite Hm; cbn [bind]; apply build_hip820_Ok|].
  split; [apply py_str_numeral, len_nonneg|]. split; assumption.
Qed.

Lemma hip820_header_counts_bytes_witness :
  decimal_value (py_str (len [195; 169; 33])) = len [195; 169; 33]
  /\ len [233; 33] <= len [195; 169; 33] <= 4 * len [233; 33].
Proof.
  destruct (hip820_header_counts_bytes [233; 33] [195; 169; 33] eq_refl)
    as (_ & Hv & Hl & _).
  split; assumption.
Defined.

(** The signing block of [authenticate] can fail in one way only: it builds
    the request body for every challenge message made of encodable code
    points, and raises UnicodeEncodeError, from [message.encode], for a
    message with a lone surrogate; the same holds for new_auth.py whatever
    the key type. *)
Theorem signing_block_outcome {K : Type} `{KeyObject K}
    (private_key : K) (account challenge message : str) (key_type : string) :
  if forallb utf8_encodable message
  then succeeds (authenticate_verify_body private_key account challenge message) = true
       /\ succeeds (new_auth_verify_payload key_type private_key account challenge
                      message) = true
  else authenticate_verify_body private_key account challenge message
       = Raise UnicodeEncodeError
       /\ new_auth_verify_payload key_type private_key account challenge message
          = Raise UnicodeEncodeError.
Proof.
  pose proof (utf8_encode_outcome message) as Ho.
  destruct (forallb utf8_encodable message).
  - destruct Ho as (mb & E & _).
    rewrite (authenticate_verify_body_Ok _ _ _ _ mb E).
    rewrite (new_auth_verify_payload_Ok _ _ _ _ _ mb E). split; reflexivity.
  - unfold authenticate_verify_body, new_auth_verify_payload. rewrite Ho.
    split; reflexivity.
Qed.

(** ** The ECDSA path of new_auth.py *)

Lemma slice_last_32 (pre raw : bytes) :
  len raw = 32 -> slice (pre ++ raw) (-32) (len (pre ++ raw)) = raw.
Proof.
  intros Hraw. unfold slice, slice_index. len_norm. rewrite Hraw.
  pose proof (len_nonneg pre).
  destruct (Z.ltb_spec (-32) 0); [|lia].
  destruct (Z.ltb_spec (len pre + 32) 0); [lia|].
  rewrite (Z.min_r (len pre + 32) (-32 + (len pre + 32))) by lia.
  rewrite Z.min_id. rewrite !Z.max_r by lia.
  replace (-32 + (len pre + 32)) with (len pre) by lia.
  replace (len pre + 32 - len pre) with (len raw) by lia.
  unfold len. rewrite !Nat2Z.id.
  rewrite skipn_app, skipn_all, Nat.sub_diag. cbn [skipn app].
  apply firstn_all.
Qed.

Lemma slice_short (der : bytes) :
  len der <= 32 -> slice der (-32) (len der) = der.
Proof.
  intros Hshort. unfold slice, slice_index. pose proof (len_nonneg der).
  destruct (Z.ltb_spec (-32) 0); [|lia].
  destruct (Z.ltb_spec (len der) 0); [lia|].
  rewrite (Z.min_r (len der) (-32 + len der)) by lia.
  rewrite Z.min_id. rewrite (Z.max_l 0 (-32 + len der)) by lia.
  rewrite Z.max_r by lia. rewrite Z.sub_0_r.
  unfold len. rewrite Nat2Z.id. cbn [Z.to_nat skipn]. apply firstn_all.
Qed.

(** [load_ecdsa_secp256k1_private_key] never looks at the DER structure: of
    the decoded bytes only the last 32 reach [SigningKey.from_string], so any
    prefix gives the same key; shorter input is passed on whole; and text
    that is not hex fails with ValueError before the key library is called. *)
Theorem load_ecdsa_uses_last_32_bytes {K : Type}
    (from_string : bytes -> result K) (der_hex : str) :
  (forall pre raw,
     bytes_fromhex der_hex = Ok (pre ++ raw) -> len raw = 32 ->
     load_ecdsa_secp256k1_private_key from_string der_hex = from_string raw)
  /\ (forall der,
        bytes_fromhex der_hex = Ok der -> len der <= 32 ->
        load_ecdsa_secp256k1_private_key from_string der_hex = from_string der)
  /\ (forall e,
        bytes_fromhex der_hex = Raise e ->
        load_ecdsa_secp256k1_private_key from_string der_hex = Raise ValueError).
Proof.
  unfold load_ecdsa_secp256k1_private_key. split; [|split].
  - intros pre raw E Hraw. rewrite E. cbn [bind]. rewrite slice_last_32 by assumption.
    reflexivity.
  - intros der E Hshort. rewrite E. cbn [bind]. rewrite slice_short by assumption.
    reflexivity.
  - intros e E. pose proof (bytes_fromhex_raises _ _ E) as ->. rewrite E. reflexivity.
Qed.

Lemma load_ecdsa_uses_last_32_bytes_witness :
  load_ecdsa_secp256k1_private_key (fun raw : bytes => Ok raw)
    (ascii_bytes "3030" ++ List.concat (repeat (ascii_bytes "ab") 32))
  = Ok (repeat 171 32).
Proof.
  apply (proj1 (@load_ecdsa_uses_last_32_bytes bytes (fun raw => Ok raw)
           (ascii_bytes "3030" ++ List.concat (repeat (ascii_bytes "ab") 32)))
           [48; 48] (repeat 171 32)); reflexivity.
Defined.



(** ** Size of the Ed25519 credential *)

Lemma b64encode_whole_groups (data : bytes) :
  len data mod 3 = 0 -> forallb b64_alphabet (b64encode data) = true.
Proof.
  induction data as [|a|a b|a b c rest IH] using list_ind3; intros Hlen.
  - reflexivity.
  - discriminate Hlen.
  - discriminate Hlen.
  - cbn [b64encode forallb]. rewrite !b64_sextet_alphabet. cbn [andb].
    apply IH. revert Hlen. len_norm.
    replace (1 + (1 + (1 + len rest))) with (len rest + 1 * 3) by lia.
    rewrite Z.mod_add by lia. trivial.
Qed.

Lemma signature_map_layout_len_ed25519 (pub sig : bytes) :
  len pub = 32 -> len sig = 64 -> len (signature_map_layout 26 pub sig) = 102.
Proof.
  intros Hpub Hsig.
  assert (Hin : len (sig_pair_layout 26 pub sig) = 100).
  { rewrite sig_pair_layout_len, Hpub, Hsig. reflexivity. }
  unfold signature_map_layout. rewrite Hin.
  rewrite !len_app, Hin. reflexivity.
Qed.

(** With a 32-byte public key and 64-byte signatures the credential that
    [authenticate] sends is always 136 characters of the base64 alphabet,
    without padding, whatever the challenge message. *)
Theorem ed25519_credential_size {K : Type} `{KeyObject K}
    (private_key : K) (account challenge message : str) (mb : bytes) :
  len (public_bytes_raw private_key) = 32 ->
  (forall m, len (sign private_key m) = 64) ->
  utf8_encode message = Ok mb ->
  exists body,
    authenticate_verify_body private_key account challenge message = Ok body
    /\ len (signature_map_base64 body) = 136
    /\ forallb b64_alphabet (signature_map_base64 body) = true.
Proof.
  intros Hpub Hsig Hm. eexists.
  split; [apply (authenticate_verify_body_Ok _ _ _ _ mb Hm)|].
  cbn [signature_map_base64].
  pose proof (signature_map_layout_len_ed25519 _ _ Hpub
                (Hsig (hip820_prefix ++ py_str (len mb) ++ [10] ++ mb))) as Hlen.
  split.
  - rewrite b64encode_len, Hlen. reflexivity.
  - apply b64encode_whole_groups. rewrite Hlen. reflexivity.
Qed.

Lemma demo_sign_len (k m : bytes) : len (@sign _ demo_key k m) = 64.
Proof.
  cbn [sign demo_key]. unfold len.
  rewrite length_map, length_firstn, !length_app, repeat_length. lia.
Qed.

Lemma ed25519_credential_size_witness :
  exists body,
    @authenticate_verify_body _ demo_key (repeat 7 32) [] [] [104; 105] = Ok body
    /\ len (signature_map_base64 body) = 136.
Proof.
  destruct (@ed25519_credential_size _ demo_key (repeat 7 32) [] [] [104; 105]
              [104; 105] eq_refl (demo_sign_len (repeat 7 32)) eq_refl)
    as (body & H1 & H2 & _).
  exists body. split; assumption.
Defined.

(** ** Requests with retries *)

